(** * wolf-comm: the token cache, the system-context cache and the MQTT bridge

    A shallow embedding of [src/wolf.py] and [src/wolf_comm/token_auth.py].

    - [Module Py] models the part of the Python runtime and standard library
      the two files call: exceptions, [str], the objects [json.loads] builds,
      [json], [datetime], [urllib.parse] and UTF-8 decoding.
    - [Module token_auth] embeds [wolf_comm/token_auth.py].
    - [Module wolf] embeds [wolf.py].

    Functions keep the names they have in the source.  Code that raises
    returns [Raise e]; code with effects threads a world that records the
    clock, the files, the objects it mutates and the trace of what it prints,
    logs and asks of its collaborators. *)

From stdpp Require Import gmap list fin_maps.
From Stdlib Require Import ZArith NArith Lia.
From Stdlib.Strings Require Import Byte.
From Stdlib Require DecimalString.

Set Default Proof Using "Type".
Set Warnings "-register-all".
Local Open Scope Z_scope.

(* ===================================================================== *)
(** * The Python runtime                                                  *)
(* ===================================================================== *)

Module Py.

(** ** Exceptions and results *)

(** The exception classes the two files raise, catch or let through.
    [JSONDecodeError] and [UnicodeDecodeError] are subclasses of
    [ValueError]; [FileNotFoundError] is a subclass of [OSError];
    [Failure n] stands for whatever exception a collaborator (the HTTP
    client, the MQTT client, the device protocol) raises. *)
Inductive exn :=
  | ValueError | JSONDecodeError | UnicodeDecodeError
  | KeyError | TypeError | AttributeError | IndexError
  | RuntimeError | OverflowError
  | OSError | FileNotFoundError
  | InvalidAuth
  | Failure (n : nat).

#[global] Instance exn_eq_dec : EqDecision exn.
Proof. solve_decision. Defined.

(** [except ValueError] catches the class and its subclasses. *)
Definition is_ValueError (e : exn) : bool :=
  match e with
  | ValueError | JSONDecodeError | UnicodeDecodeError => true
  | _ => false
  end.

Definition is_OSError (e : exn) : bool :=
  match e with
  | OSError | FileNotFoundError => true
  | _ => false
  end.

Inductive result (A : Type) :=
  | Ok (a : A)
  | Raise (e : exn).
Arguments Ok {A} a.
Arguments Raise {A} e.

Definition rbind {A B} (r : result A) (k : A → result B) : result B :=
  match r with
  | Ok a => k a
  | Raise e => Raise e
  end.

Definition rmap {A B} (f : A → B) (r : result A) : result B :=
  rbind r (λ a, Ok (f a)).

Definition returns {A} (r : result A) : Prop := ∃ a, r = Ok a.
Definition raises {A} (r : result A) : Prop := ∃ e, r = Raise e.

(** ** [str] *)

(** A [str] is a sequence of Unicode code points. *)
Inductive str := Str (cs : list N).

Definition chars (s : str) : list N := let 'Str cs := s in cs.

#[global] Instance str_eq_dec : EqDecision str.
Proof. solve_decision. Defined.

#[global] Instance str_countable : Countable str.
Proof. apply (inj_countable' chars Str). by intros []. Defined.

(** String literals denote ASCII texts. *)
Definition str_of_bytes (bs : list byte) : option str :=
  if forallb (λ b, Byte.to_N b <? 128)%N bs
  then Some (Str (map Byte.to_N bs)) else None.

Definition bytes_of_str (s : str) : option (list byte) :=
  if forallb (λ c, c <? 128)%N (chars s)
  then mapM Byte.of_N (chars s) else None.

Declare Scope str_scope.
Delimit Scope str_scope with str.
Bind Scope str_scope with str.
String Notation str str_of_bytes bytes_of_str : str_scope.
Local Open Scope str_scope.

(** A literal cannot hold a double quote: [dq s] is [s] with each apostrophe
    replaced by one. *)
Definition dq (s : str) : str :=
  Str (map (λ c, if (c =? 39)%N then 34%N else c) (chars s)).

Definition len (s : str) : nat := length (chars s).

(** [str.isspace] for one character: the code points whose bidirectional
    class is WS, B or S, or whose category is Zs. *)
Definition isspace (c : N) : bool :=
  ((9 <=? c) && (c <=? 13) || (28 <=? c) && (c <=? 32)
   || (c =? 133) || (c =? 160) || (c =? 5760)
   || (8192 <=? c) && (c <=? 8202)
   || (c =? 8232) || (c =? 8233) || (c =? 8239) || (c =? 8287)
   || (c =? 12288))%N.

Fixpoint lstrip_by (p : N → bool) (cs : list N) : list N :=
  match cs with
  | c :: cs' => if p c then lstrip_by p cs' else cs
  | [] => []
  end.

Definition rstrip_by (p : N → bool) (cs : list N) : list N :=
  rev (lstrip_by p (rev cs)).

(** [s.strip()] *)
Definition strip (s : str) : str :=
  Str (rstrip_by isspace (lstrip_by isspace (chars s))).

(** The longest prefix of characters that fail [p], and the rest. *)
Fixpoint break_at (p : N → bool) (cs : list N) : list N * list N :=
  match cs with
  | c :: cs' =>
      if p c then ([], cs)
      else let '(w, r) := break_at p cs' in (c :: w, r)
  | [] => ([], [])
  end.

(** [s.split(None, 1)]: leading whitespace is skipped, the first word is
    cut at the next whitespace, and what follows that whitespace run is kept
    whole, trailing whitespace included. *)
Definition split_None_1 (s : str) : list str :=
  match lstrip_by isspace (chars s) with
  | [] => []
  | cs =>
      let '(w, r) := break_at isspace cs in
      match lstrip_by isspace r with
      | [] => [Str w]
      | r' => [Str w; Str r']
      end
  end.

(** [s.lower()] on the ASCII letters.  No other code point lowers to one of
    the letters of the words this development compares with, so the
    comparisons made on lowered texts are exact. *)
Definition lower_char (c : N) : N :=
  if ((65 <=? c) && (c <=? 90))%N then (c + 32)%N else c.
Definition lower (s : str) : str := Str (map lower_char (chars s)).

(** The printable characters of ASCII. *)
Definition printable (c : N) : bool := ((32 <=? c) && (c <=? 126))%N.

Definition is_digit (c : N) : bool := ((48 <=? c) && (c <=? 57))%N.
Definition is_alpha_ascii (c : N) : bool :=
  ((65 <=? c) && (c <=? 90) || (97 <=? c) && (c <=? 122))%N.

(** The value of a run of decimal digits. *)
Definition digits_value (ds : list N) : Z :=
  fold_left (λ acc d, 10 * acc + (Z.of_N d - 48)) ds 0.

(** ** Objects *)

(** A [float] as the decimal literal it was read from, [m * 10^e]; the
    rounding to binary64 is modelled where the code depends on it (the truth
    value). *)
Inductive float :=
  | FNaN
  | FInf (negative : bool)
  | FDec (m e : Z).

(** The objects [json.loads] builds: [None], [bool], [int], [float], [str],
    [list] and [dict].  A [dict] lists its items in insertion order, each key
    once. *)
Inductive obj :=
  | PNone
  | PBool (b : bool)
  | PInt (n : Z)
  | PFloat (f : float)
  | PStr (s : str)
  | PList (l : list obj)
  | PDict (d : list (str * obj)).

(** A decimal literal rounds to zero when it is zero or at most half the
    smallest subnormal, [2^-1075]. *)
Definition float_is_zero (f : float) : bool :=
  match f with
  | FDec m e =>
      (m =? 0) || ((e <? 0) && (Z.abs m * 2 ^ 1075 <=? 10 ^ (- e)))
  | _ => false
  end.

(** [bool(x)], the test of [if x:], [not x] and [x or y]. *)
Definition truthy (x : obj) : bool :=
  match x with
  | PNone => false
  | PBool b => b
  | PInt n => negb (n =? 0)
  | PFloat f => negb (float_is_zero f)
  | PStr s => negb (bool_decide (chars s = []))
  | PList l => negb (bool_decide (length l = 0%nat))
  | PDict d => negb (bool_decide (length d = 0%nat))
  end.

(** [x is None] *)
Definition is_None (x : obj) : bool :=
  match x with PNone => true | _ => false end.

(** [s == x] for a [str] [s] and any object [x]. *)
Definition str_eq (s : str) (x : obj) : bool :=
  match x with PStr t => bool_decide (s = t) | _ => false end.

(** [x or y] *)
Definition or_ (x y : obj) : obj := if truthy x then x else y.

Definition items := list (str * obj).

Fixpoint lookup_item (k : str) (d : items) : option obj :=
  match d with
  | (k', v) :: d' => if decide (k' = k) then Some v else lookup_item k d'
  | [] => None
  end.

(** [d[k] = v]: an existing key keeps its place. *)
Fixpoint set_item (k : str) (v : obj) (d : items) : items :=
  match d with
  | (k', v') :: d' =>
      if decide (k' = k) then (k, v) :: d' else (k', v') :: set_item k v d'
  | [] => [(k, v)]
  end.

(** [dict(pairs)] *)
Definition dict_of_pairs (ps : items) : items :=
  fold_left (λ d kv, set_item kv.1 kv.2 d) ps [].

(** [x.get(k)]: only a [dict] has the method. *)
Definition get (x : obj) (k : str) : result obj :=
  match x with
  | PDict d => Ok (default PNone (lookup_item k d))
  | _ => Raise AttributeError
  end.

(** [x[k]] with a [str] key: [KeyError] on a [dict] without the key,
    [TypeError] on an object that is indexed by position or not at all. *)
Definition getitem (x : obj) (k : str) : result obj :=
  match x with
  | PDict d =>
      match lookup_item k d with
      | Some v => Ok v
      | None => Raise KeyError
      end
  | _ => Raise TypeError
  end.

(** ** [json.loads] *)

(** The decoder of CPython's [json] module with its default settings, as
    the C scanner implements it: strict strings, [NaN] and [Infinity]
    accepted, integers of any size.  The interpreter's recursion limit and
    its limit on the digits of an integer are not modelled. *)
Module json.

Definition is_ws (c : N) : bool :=
  ((c =? 32) || (c =? 9) || (c =? 10) || (c =? 13))%N.
Definition skip_ws : list N → list N := lstrip_by is_ws.

Definition hex_value (c : N) : option N :=
  if is_digit c then Some (c - 48)%N
  else if ((97 <=? c) && (c <=? 102))%N then Some (c - 87)%N
  else if ((65 <=? c) && (c <=? 70))%N then Some (c - 55)%N
  else None.

Definition hex4 (a b c d : N) : option N :=
  match hex_value a, hex_value b, hex_value c, hex_value d with
  | Some a, Some b, Some c, Some d => Some (((a * 16 + b) * 16 + c) * 16 + d)%N
  | _, _, _, _ => None
  end.

Definition simple_escape (c : N) : option N :=
  if (c =? 34)%N then Some 34%N            (* quote *)
  else if (c =? 92)%N then Some 92%N       (* backslash *)
  else if (c =? 47)%N then Some 47%N       (* slash *)
  else if (c =? 98)%N then Some 8%N        (* b: backspace *)
  else if (c =? 102)%N then Some 12%N      (* f: form feed *)
  else if (c =? 110)%N then Some 10%N      (* n: line feed *)
  else if (c =? 114)%N then Some 13%N      (* r: carriage return *)
  else if (c =? 116)%N then Some 9%N       (* t: tab *)
  else None.

Definition is_high_surrogate (c : N) : bool := ((55296 <=? c) && (c <=? 56319))%N.
Definition is_low_surrogate (c : N) : bool := ((56320 <=? c) && (c <=? 57343))%N.
Definition join_surrogates (hi lo : N) : N :=
  (65536 + ((hi - 55296) * 1024 + (lo - 56320)))%N.

(** The text after an opening quote: the characters up to the closing
    quote, escapes decoded, and what follows the quote. *)
Fixpoint scan_string (cs acc : list N) : option (list N * list N) :=
  match cs with
  | [] => None
  | c :: cs1 =>
      if (c =? 34)%N then Some (rev acc, cs1)
      else if (c =? 92)%N then
        match cs1 with
        | [] => None
        | e :: cs2 =>
            if (e =? 117)%N then
              match cs2 with
              | h1 :: h2 :: h3 :: h4 :: r =>
                  match hex4 h1 h2 h3 h4 with
                  | None => None
                  | Some uni =>
                      if is_high_surrogate uni then
                        match r with
                        | b :: u :: r2 =>
                            if ((b =? 92) && (u =? 117))%N then
                              match r2 with
                              | g1 :: g2 :: g3 :: g4 :: r3 =>
                                  match hex4 g1 g2 g3 g4 with
                                  | None => None
                                  | Some uni2 =>
                                      if is_low_surrogate uni2
                                      then scan_string r3 (join_surrogates uni uni2 :: acc)
                                      else scan_string r (uni :: acc)
                                  end
                              | _ => None
                              end
                            else scan_string r (uni :: acc)
                        | _ => scan_string r (uni :: acc)
                        end
                      else scan_string r (uni :: acc)
                  end
              | _ => None
              end
            else
              match simple_escape e with
              | Some ch => scan_string cs2 (ch :: acc)
              | None => None
              end
        end
      else if (c <? 32)%N then None
      else scan_string cs1 (c :: acc)
  end.

(** The longest prefix of decimal digits, and the rest. *)
Definition span_digits (cs : list N) : list N * list N :=
  break_at (λ c, negb (is_digit c)) cs.

(** A number at the head of [cs]: an optional minus sign; a zero, or a
    nonzero digit and more digits; then, each optional, a point with one
    digit or more, and an [e] or [E] with an optional sign and one digit or
    more.  It is an [int] without fraction and exponent, a [float] with
    one. *)
Definition scan_number (cs : list N) : option (obj * list N) :=
  let '(neg, cs1) :=
    match cs with
    | c :: cs' => if (c =? 45)%N then (true, cs') else (false, cs)
    | [] => (false, cs)
    end in
  let int_part :=
    match cs1 with
    | c :: cs' =>
        if (c =? 48)%N then Some ([c], cs')
        else if is_digit c then
          let '(ds, r) := span_digits cs' in Some (c :: ds, r)
        else None
    | [] => None
    end in
  match int_part with
  | None => None
  | Some (ids, r1) =>
      let '(fds, r2) :=
        match r1 with
        | dot :: d :: r =>
            if ((dot =? 46) && is_digit d)%N
            then let '(ds, r') := span_digits r in (Some (d :: ds), r')
            else (None, r1)
        | _ => (None, r1)
        end in
      let '(exp, r3) :=
        match r2 with
        | e :: r =>
            if ((e =? 101) || (e =? 69))%N then
              let '(eneg, r') :=
                match r with
                | s :: r' =>
                    if (s =? 45)%N then (true, r')
                    else if (s =? 43)%N then (false, r') else (false, r)
                | [] => (false, r)
                end in
              match span_digits r' with
              | ([], _) => (None, r2)
              | (eds, r'') =>
                  (Some (if eneg : bool then - digits_value eds else digits_value eds), r'')
              end
            else (None, r2)
        | [] => (None, r2)
        end in
      let sign (z : Z) := if neg : bool then - z else z in
      match fds, exp with
      | None, None => Some (PInt (sign (digits_value ids)), r3)
      | _, _ =>
          let fds' := default [] fds in
          Some (PFloat (FDec (sign (digits_value (ids ++ fds')))
                             (default 0 exp - Z.of_nat (length fds'))), r3)
      end
  end.

Fixpoint strip_prefix (p cs : list N) : option (list N) :=
  match p, cs with
  | [], _ => Some cs
  | a :: p', c :: cs' => if (a =? c)%N then strip_prefix p' cs' else None
  | _ :: _, [] => None
  end.

(** The outcome of scanning at a position: a value and the rest of the
    text, a malformed text, or recursion cut short by the bound [fuel]. *)
Inductive scanned :=
  | Scanned (v : obj) (rest : list N)
  | Malformed
  | Cut.

Definition scan_word (w : str) (v : obj) (cs : list N) : scanned :=
  match strip_prefix (chars w) cs with
  | Some r => Scanned v r
  | None => Malformed
  end.

Definition of_option (o : option (obj * list N)) : scanned :=
  match o with
  | Some (v, r) => Scanned v r
  | None => Malformed
  end.

(** [scan_once], with the loops of [JSONArray] and [JSONObject].  A value
    starts at the head of the text; the callers skip the whitespace before
    it. *)
Fixpoint scan_once (fuel : nat) (cs : list N) : scanned :=
  match fuel with
  | O => Cut
  | S fuel =>
      match cs with
      | [] => Malformed
      | c :: cs1 =>
          if (c =? 34)%N then
            match scan_string cs1 [] with
            | Some (s, r) => Scanned (PStr (Str s)) r
            | None => Malformed
            end
          else if (c =? 123)%N then
            match skip_ws cs1 with
            | c' :: r =>
                if (c' =? 125)%N then Scanned (PDict []) r
                else scan_members fuel (c' :: r) []
            | [] => Malformed
            end
          else if (c =? 91)%N then
            match skip_ws cs1 with
            | c' :: r =>
                if (c' =? 93)%N then Scanned (PList []) r
                else scan_elements fuel (c' :: r) []
            | [] => Malformed
            end
          else if (c =? 110)%N then scan_word "null" PNone cs
          else if (c =? 116)%N then scan_word "true" (PBool true) cs
          else if (c =? 102)%N then scan_word "false" (PBool false) cs
          else if (c =? 78)%N then scan_word "NaN" (PFloat FNaN) cs
          else if (c =? 73)%N then scan_word "Infinity" (PFloat (FInf false)) cs
          else
            match strip_prefix (chars "-Infinity") cs with
            | Some r => Scanned (PFloat (FInf true)) r
            | None => of_option (scan_number cs)
            end
      end
  end
with scan_elements (fuel : nat) (cs : list N) (acc : list obj) : scanned :=
  match fuel with
  | O => Cut
  | S fuel =>
      match scan_once fuel cs with
      | Scanned v r =>
          match skip_ws r with
          | c :: r1 =>
              if (c =? 93)%N then Scanned (PList (rev (v :: acc))) r1
              else if (c =? 44)%N then scan_elements fuel (skip_ws r1) (v :: acc)
              else Malformed
          | [] => Malformed
          end
      | Malformed => Malformed
      | Cut => Cut
      end
  end
with scan_members (fuel : nat) (cs : list N) (acc : items) : scanned :=
  match fuel with
  | O => Cut
  | S fuel =>
      match cs with
      | q :: cs1 =>
          if (q =? 34)%N then
            match scan_string cs1 [] with
            | Some (k, r) =>
                match skip_ws r with
                | colon :: r1 =>
                    if (colon =? 58)%N then
                      match scan_once fuel (skip_ws r1) with
                      | Scanned v r2 =>
                          match skip_ws r2 with
                          | c :: r3 =>
                              if (c =? 125)%N
                              then Scanned (PDict (dict_of_pairs (rev ((Str k, v) :: acc)))) r3
                              else if (c =? 44)%N
                              then scan_members fuel (skip_ws r3) ((Str k, v) :: acc)
                              else Malformed
                          | [] => Malformed
                          end
                      | Malformed => Malformed
                      | Cut => Cut
                      end
                    else Malformed
                | [] => Malformed
                end
            | None => Malformed
            end
          else Malformed
      | [] => Malformed
      end
  end.

(** Two units of fuel for each character are enough (see
    [scan_once_not_cut]). *)
Definition fuel_for (cs : list N) : nat := S (2 * length cs).

(** [json.loads(s)]: one value, whitespace around it, nothing else. *)
Definition loads (s : str) : result obj :=
  let cs := skip_ws (chars s) in
  match scan_once (fuel_for cs) cs with
  | Scanned v r =>
      match skip_ws r with
      | [] => Ok v
      | _ :: _ => Raise JSONDecodeError
      end
  | Malformed => Raise JSONDecodeError
  | Cut => Raise RuntimeError
  end.

End json.

(** ** Decimal and hexadecimal texts *)

(** [str(n)] for an [int]. *)
Definition decimal (n : Z) : list N :=
  map Ascii.N_of_ascii
      (String.list_ascii_of_string (DecimalString.NilZero.string_of_int (Z.to_int n))).

(** The last [width] decimal digits of [n], zero-padded. *)
Fixpoint padded (width : nat) (n : Z) : list N :=
  match width with
  | O => []
  | S w => padded w (n / 10) ++ [Z.to_N (48 + n mod 10)]
  end.

Definition hex_digit (d : N) : N := if (d <? 10)%N then (48 + d)%N else (87 + d)%N.

(** Four lowercase hexadecimal digits. *)
Definition hex4_of (c : N) : list N :=
  [hex_digit (c / 4096 mod 16); hex_digit (c / 256 mod 16);
   hex_digit (c / 16 mod 16); hex_digit (c mod 16)]%N.

(** ** [json.dumps] *)

(** The encoder with its default settings: [", "] and [": "] as separators
    and every character outside printable ASCII escaped.  A [float] is
    written as its decimal literal in exponent form; CPython writes the
    shortest literal that reads back as the same binary64, another text for
    the same number. *)
Module json_encoder.

Definition escape_char (c : N) : list N :=
  if (c =? 34)%N then [92; 34]%N
  else if (c =? 92)%N then [92; 92]%N
  else if (c =? 10)%N then [92; 110]%N
  else if (c =? 13)%N then [92; 114]%N
  else if (c =? 9)%N then [92; 116]%N
  else if (c =? 12)%N then [92; 102]%N
  else if (c =? 8)%N then [92; 98]%N
  else if ((32 <=? c) && (c <=? 126))%N then [c]
  else if (c <? 65536)%N then [92; 117]%N ++ hex4_of c
  else
    let v := (c - 65536)%N in
    ([92; 117] ++ hex4_of (55296 + v / 1024) ++
     [92; 117] ++ hex4_of (56320 + v mod 1024))%N.

Definition encode_str (s : str) : list N :=
  [34%N] ++ List.concat (map escape_char (chars s)) ++ [34%N].

Definition encode_float (f : float) : list N :=
  match f with
  | FNaN => chars "NaN"
  | FInf false => chars "Infinity"
  | FInf true => chars "-Infinity"
  | FDec m e => decimal m ++ chars "e" ++ decimal e
  end.

Definition join (sep : list N) (parts : list (list N)) : list N :=
  match parts with
  | [] => []
  | p :: ps => p ++ List.concat (map (λ q, sep ++ q) ps)
  end.

Fixpoint encode (x : obj) : list N :=
  match x with
  | PNone => chars "null"
  | PBool true => chars "true"
  | PBool false => chars "false"
  | PInt n => decimal n
  | PFloat f => encode_float f
  | PStr s => encode_str s
  | PList l => chars "[" ++ join (chars ", ") (map encode l) ++ chars "]"
  | PDict d =>
      chars "{" ++
      join (chars ", ")
           (map (λ kv : str * obj, encode_str kv.1 ++ chars ": " ++ encode kv.2) d) ++
      chars "}"
  end.

End json_encoder.

Definition json_loads : str → result obj := json.loads.
Definition json_dumps (x : obj) : str := Str (json_encoder.encode x).

(** ** [datetime] *)

(** A naive [datetime] is a point of the proleptic Gregorian calendar,
    counted in microseconds from 0001-01-01T00:00:00; an aware one carries
    its offset from UTC, in microseconds, as well.  The code compares
    datetimes and adds durations to them, which is the order and the
    addition of the counts; the calendar is needed to read and write them. *)
Inductive datetime :=
  | Naive (us : Z)
  | Aware (us : Z) (utcoffset : Z).

#[global] Instance datetime_eq_dec : EqDecision datetime.
Proof. solve_decision. Defined.

Module calendar.

Definition us_per_second : Z := 1000000.
Definition us_per_day : Z := 86400 * us_per_second.
(** [date.max.toordinal()], the ordinal of 9999-12-31. *)
Definition max_ordinal : Z := 3652059.
Definition max_us : Z := max_ordinal * us_per_day.

Definition is_leap (y : Z) : bool :=
  (y mod 4 =? 0) && (negb (y mod 100 =? 0) || (y mod 400 =? 0)).

Definition days_in_month (y m : Z) : Z :=
  if m =? 2 then (if is_leap y then 29 else 28)
  else if (m =? 4) || (m =? 6) || (m =? 9) || (m =? 11) then 30 else 31.

Definition days_before_year (y : Z) : Z :=
  let y := y - 1 in y * 365 + y / 4 - y / 100 + y / 400.

Definition days_before_month_table (m : Z) : Z :=
  nth (Z.to_nat m) [0; 0; 31; 59; 90; 120; 151; 181; 212; 243; 273; 304; 334] 0.

Definition days_before_month (y m : Z) : Z :=
  days_before_month_table m + (if (2 <? m) && is_leap y then 1 else 0).

Definition ymd2ord (y m d : Z) : Z :=
  days_before_year y + days_before_month y m + d.

(** [_ord2ymd] *)
Definition ord2ymd (n : Z) : Z * Z * Z :=
  let n := n - 1 in
  let n400 := n / 146097 in let n := n mod 146097 in
  let n100 := n / 36524 in let n := n mod 36524 in
  let n4 := n / 1461 in let n := n mod 1461 in
  let n1 := n / 365 in let n := n mod 365 in
  let year := n400 * 400 + 1 + n100 * 100 + n4 * 4 + n1 in
  if (n1 =? 4) || (n100 =? 4) then (year - 1, 12, 31)
  else
    let leapyear := (n1 =? 3) && (negb (n4 =? 24) || (n100 =? 3)) in
    let month := (n + 50) / 32 in
    let preceding :=
      days_before_month_table month + (if (2 <? month) && leapyear then 1 else 0) in
    if n <? preceding then
      let month := month - 1 in
      let preceding :=
        preceding - (if (month =? 2) && leapyear then 29
                     else days_in_month 1 month) in
      (year, month, n - preceding + 1)
    else (year, month, n - preceding + 1).

(** The constructor's range checks. *)
Definition count (y m d hh mm ss us : Z) : result Z :=
  if (1 <=? y) && (y <=? 9999) && (1 <=? m) && (m <=? 12)
     && (1 <=? d) && (d <=? days_in_month y m)
     && (0 <=? hh) && (hh <? 24) && (0 <=? mm) && (mm <? 60)
     && (0 <=? ss) && (ss <? 60) && (0 <=? us) && (us <? us_per_second)
  then Ok ((ymd2ord y m d - 1) * us_per_day
           + ((hh * 60 + mm) * 60 + ss) * us_per_second + us)
  else Raise ValueError.

Definition digits (k : nat) (cs : list N) : option (Z * list N) :=
  let ds := take k cs in
  if bool_decide (length ds = k) && forallb is_digit ds
  then Some (digits_value ds, drop k cs) else None.

Definition expect (c : N) (cs : list N) : option (list N) :=
  match cs with
  | c' :: r => if (c =? c')%N then Some r else None
  | [] => None
  end.

(** [HH[:MM[:SS[.fff[fff]]]]] at the head of [cs]: the microseconds into the
    day or into the offset, and the rest. *)
Definition clock_fields (cs : list N) : option (Z * Z * Z * Z * list N) :=
  '(hh, r) ← digits 2 cs;
  match expect 58 r ≫= digits 2 with
  | None => Some (hh, 0, 0, 0, r)
  | Some (mm, r) =>
      match expect 58 r ≫= digits 2 with
      | None => Some (hh, mm, 0, 0, r)
      | Some (ss, r) =>
          match expect 46 r with
          | None => Some (hh, mm, ss, 0, r)
          | Some r' =>
              match digits 6 r' with
              | Some (us, r'') => Some (hh, mm, ss, us, r'')
              | None =>
                  '(ms, r'') ← digits 3 r';
                  Some (hh, mm, ss, ms * 1000, r'')
              end
          end
      end
  end.

(** [datetime.fromisoformat] on a text, with the grammar of Python 3.7 to
    3.10, the inverse of [isoformat]:
    [YYYY-MM-DD[*HH[:MM[:SS[.fff[fff]]]][+HH:MM[:SS[.ffffff]]]]], where the
    star is any one character.  (Python 3.11 reads more forms of ISO 8601.) *)
Definition parse (cs : list N) : option datetime :=
  '(y, r) ← digits 4 cs;
  '(m, r) ← expect 45 r ≫= digits 2;
  '(d, r) ← expect 45 r ≫= digits 2;
  match r with
  | [] =>
      match count y m d 0 0 0 0 with
      | Ok t => Some (Naive t)
      | Raise _ => None
      end
  | _ :: r =>
      '(hh, mm, ss, us, r) ← clock_fields r;
      match count y m d hh mm ss us with
      | Raise _ => None
      | Ok t =>
          match r with
          | [] => Some (Naive t)
          | sign :: r =>
              if ((sign =? 43) || (sign =? 45))%N then
                '(oh, om, os, ous, r) ← clock_fields r;
                match r with
                | [] =>
                    let off := ((oh * 60 + om) * 60 + os) * us_per_second + ous in
                    if (oh <? 24) && (om <? 60) && (os <? 60)
                    then Some (Aware t (if (sign =? 45)%N then - off else off))
                    else None
                | _ :: _ => None
                end
              else None
          end
      end
  end.

(** [d.isoformat()]: the microseconds are written when they are not zero,
    the offset of an aware datetime to the precision it needs. *)
Definition clock_text (t : Z) (seconds_always : bool) : list N :=
  let s := t / us_per_second in
  let us := t mod us_per_second in
  padded 2 (s / 3600) ++ [58%N] ++ padded 2 (s / 60 mod 60) ++
  (if seconds_always || negb (s mod 60 =? 0) || negb (us =? 0)
   then [58%N] ++ padded 2 (s mod 60) else []) ++
  (if us =? 0 then [] else [46%N] ++ padded 6 us).

Definition format (d : datetime) : list N :=
  let t := match d with Naive t | Aware t _ => t end in
  let '(y, m, dd) := ord2ymd (t / us_per_day + 1) in
  padded 4 y ++ [45%N] ++ padded 2 m ++ [45%N] ++ padded 2 dd ++ [84%N] ++
  clock_text (t mod us_per_day) true ++
  match d with
  | Naive _ => []
  | Aware _ off =>
      [if off <? 0 then 45%N else 43%N] ++ clock_text (Z.abs off) false
  end.

End calendar.

(** [datetime.fromisoformat(x)]: [TypeError] unless [x] is a [str],
    [ValueError] when the text is not a datetime. *)
Definition fromisoformat (x : obj) : result datetime :=
  match x with
  | PStr s =>
      match calendar.parse (chars s) with
      | Some d => Ok d
      | None => Raise ValueError
      end
  | _ => Raise TypeError
  end.

Definition isoformat (d : datetime) : str := Str (calendar.format d).

(** [a < b] and [a >= b]: a naive and an aware datetime do not compare. *)
Definition datetime_lt (a b : datetime) : result bool :=
  match a, b with
  | Naive s, Naive t => Ok (s <? t)
  | Aware s _, Aware t _ => Ok (s <? t)
  | _, _ => Raise TypeError
  end.

Definition datetime_ge (a b : datetime) : result bool :=
  rmap negb (datetime_lt a b).

(** [d + delta] for a naive [d] and a duration in microseconds. *)
Definition datetime_add (t delta : Z) : result Z :=
  if (0 <=? t + delta) && (t + delta <? calendar.max_us)
  then Ok (t + delta) else Raise OverflowError.

(** Rounding to the nearest integer, halves to the even one. *)
Definition round_half_even (num den : Z) : Z :=
  let q := num / den in
  let r := 2 * (num mod den) in
  if r <? den then q
  else if den <? r then q + 1
  else if Z.even q then q else q + 1.

(** [timedelta(seconds=x)] in microseconds.  A [float] is rounded from its
    decimal literal; CPython rounds the binary64 nearest to it, which can
    differ by one microsecond. *)
Definition timedelta_seconds (x : obj) : result Z :=
  let bounded (us : Z) :=
    if Z.abs us <? 1000000000 * calendar.us_per_day
    then Ok us else Raise OverflowError in
  match x with
  | PInt n => bounded (n * calendar.us_per_second)
  | PBool b => Ok (if b then calendar.us_per_second else 0)
  | PFloat (FDec m e) =>
      bounded (if 0 <=? e + 6 then m * 10 ^ (e + 6)
               else round_half_even m (10 ^ (- (e + 6))))
  | PFloat FNaN => Raise ValueError
  | PFloat (FInf _) => Raise OverflowError
  | _ => Raise TypeError
  end.

Definition one_day : Z := calendar.us_per_day.

(** ** [bytes.decode("utf-8", errors="ignore")] *)

Module utf8.

Definition is_cont (b : N) : bool := ((128 <=? b) && (b <=? 191))%N.
Definition between (lo hi b : N) : bool := ((lo <=? b) && (b <=? hi))%N.

(** The bytes that start no well-formed sequence are dropped one at a time;
    a continuation byte starts none, so this drops exactly the bytes the
    decoder ignores. *)
Fixpoint decode_ignore (bs : list N) : list N :=
  match bs with
  | [] => []
  | b0 :: r0 =>
      if (b0 <? 128)%N then b0 :: decode_ignore r0
      else
        match r0 with
        | b1 :: r1 =>
            if between 194 223 b0 && is_cont b1
            then ((b0 - 192) * 64 + (b1 - 128))%N :: decode_ignore r1
            else
              match r1 with
              | b2 :: r2 =>
                  if (between 225 236 b0 || between 238 239 b0) && is_cont b1 && is_cont b2
                     || (b0 =? 224)%N && between 160 191 b1 && is_cont b2
                     || (b0 =? 237)%N && between 128 159 b1 && is_cont b2
                  then (((b0 - 224) * 64 + (b1 - 128)) * 64 + (b2 - 128))%N
                       :: decode_ignore r2
                  else
                    match r2 with
                    | b3 :: r3 =>
                        if (between 241 243 b0 && is_cont b1
                            || (b0 =? 240)%N && between 144 191 b1
                            || (b0 =? 244)%N && between 128 143 b1)
                           && is_cont b2 && is_cont b3
                        then ((((b0 - 240) * 64 + (b1 - 128)) * 64 + (b2 - 128)) * 64
                              + (b3 - 128))%N :: decode_ignore r3
                        else decode_ignore r0
                    | [] => decode_ignore r0
                    end
              | [] => decode_ignore r0
              end
        | [] => []
        end
  end.

(** The strict decoder: the same well-formed sequences, and no text when a
    byte starts none. *)
Fixpoint decode (bs : list N) : option (list N) :=
  match bs with
  | [] => Some []
  | b0 :: r0 =>
      if (b0 <? 128)%N then cons b0 <$> decode r0
      else
        match r0 with
        | b1 :: r1 =>
            if between 194 223 b0 && is_cont b1
            then cons ((b0 - 192) * 64 + (b1 - 128))%N <$> decode r1
            else
              match r1 with
              | b2 :: r2 =>
                  if (between 225 236 b0 || between 238 239 b0) && is_cont b1 && is_cont b2
                     || (b0 =? 224)%N && between 160 191 b1 && is_cont b2
                     || (b0 =? 237)%N && between 128 159 b1 && is_cont b2
                  then cons (((b0 - 224) * 64 + (b1 - 128)) * 64 + (b2 - 128))%N
                         <$> decode r2
                  else
                    match r2 with
                    | b3 :: r3 =>
                        if (between 241 243 b0 && is_cont b1
                            || (b0 =? 240)%N && between 144 191 b1
                            || (b0 =? 244)%N && between 128 143 b1)
                           && is_cont b2 && is_cont b3
                        then cons ((((b0 - 240) * 64 + (b1 - 128)) * 64 + (b2 - 128)) * 64
                                   + (b3 - 128))%N <$> decode r3
                        else None
                    | [] => None
                    end
              | [] => None
              end
        | [] => None
        end
  end.

End utf8.

(** A [bytes] object lists its bytes, each below 256. *)
Definition bytes := list N.
Definition decode_utf8_ignore (b : bytes) : str := Str (utf8.decode_ignore b).
Definition encode_ascii (s : str) : bytes := chars s.

(** [b.decode("utf-8")]: [UnicodeDecodeError] when the bytes are not
    well-formed UTF-8. *)
Definition decode_utf8 (b : bytes) : result str :=
  match utf8.decode b with
  | Some cs => Ok (Str cs)
  | None => Raise UnicodeDecodeError
  end.

(** The newline translation of a file read in text mode: a carriage return,
    with the line feed that follows it if there is one, reads as one line
    feed. *)
Fixpoint universal_newlines (cs : list N) : list N :=
  match cs with
  | [] => []
  | c :: r =>
      if (c =? 13)%N then
        10%N :: match r with
                | c' :: r' =>
                    if (c' =? 10)%N then universal_newlines r' else universal_newlines r
                | [] => []
                end
      else c :: universal_newlines r
  end.

(** [path.read_text(encoding="utf-8")] on a file that holds the bytes [b]. *)
Definition read_as_text (b : bytes) : result str :=
  rbind (decode_utf8 b) (λ s, Ok (Str (universal_newlines (chars s)))).

(** ** [urllib.parse.urlparse] *)

(** What [_parse_mqtt_url] reads of a parsed URL: [scheme], [hostname] and
    [port], after [urlsplit] of Python 3.12.  Two checks are left out: the
    host between brackets is not validated as an IP address, and a netloc
    with characters outside ASCII is not normalised and checked; the host is
    lowered on its ASCII letters. *)
Module urllib.

Record parsed := { scheme : str; netloc : str }.

Definition is_c0_or_space (c : N) : bool := (c <=? 32)%N.
Definition is_unsafe (c : N) : bool := ((c =? 9) || (c =? 10) || (c =? 13))%N.
Definition is_scheme_char (c : N) : bool :=
  is_alpha_ascii c || is_digit c || (c =? 43)%N || (c =? 45)%N || (c =? 46)%N.

Definition remove_unsafe (cs : list N) : list N :=
  List.filter (λ c, negb (is_unsafe c)) cs.

Definition contains (c : N) (cs : list N) : bool := existsb (N.eqb c) cs.

(** [s.partition(c)]: the text before the first [c], whether there is one,
    and the text after it. *)
Definition partition (c : N) (cs : list N) : list N * bool * list N :=
  match break_at (N.eqb c) cs with
  | (before, _ :: after) => (before, true, after)
  | (before, []) => (before, false, [])
  end.

(** The text after the last [c], all of it when there is none. *)
Definition after_last (c : N) (cs : list N) : list N :=
  rev (break_at (N.eqb c) (rev cs)).1.

Definition urlparse (url scheme : str) : result parsed :=
  let url := remove_unsafe (lstrip_by is_c0_or_space (chars url)) in
  let scheme :=
    remove_unsafe (rstrip_by is_c0_or_space (lstrip_by is_c0_or_space (chars scheme))) in
  let '(scheme, url) :=
    match url, partition 58 url with
    | c :: _, (before, true, after) =>
        if negb (bool_decide (before = [])) && is_alpha_ascii c
           && forallb is_scheme_char before
        then (map lower_char before, after) else (scheme, url)
    | _, _ => (scheme, url)
    end in
  match url with
  | 47%N :: 47%N :: rest =>
      let netloc :=
        (break_at (λ c, (c =? 47) || (c =? 63) || (c =? 35))%N rest).1 in
      if xorb (contains 91 netloc) (contains 93 netloc)
      then Raise ValueError
      else Ok {| scheme := Str scheme; netloc := Str netloc |}
  | _ => Ok {| scheme := Str scheme; netloc := Str [] |}
  end.

(** [_hostinfo]: the host and the port, as texts. *)
Definition hostinfo (p : parsed) : list N * list N :=
  let info := after_last 64 (chars (netloc p)) in
  match partition 91 info with
  | (_, true, bracketed) =>
      let '(host, _, port) := partition 93 bracketed in
      (host, (partition 58 port).2)
  | (_, false, _) =>
      let '(host, _, port) := partition 58 info in (host, port)
  end.

(** [p.hostname]: [None] when there is no host. *)
Definition hostname (p : parsed) : option str :=
  match (hostinfo p).1 with
  | [] => None
  | host =>
      let '(name, percent, zone) := partition 37 host in
      Some (Str (map lower_char name ++ (if percent then [37%N] else []) ++ zone))
  end.

(** [p.port]: [None] when there is no port, [ValueError] when it is no
    number up to 65535. *)
Definition port (p : parsed) : result (option Z) :=
  match (hostinfo p).2 with
  | [] => Ok None
  | ds =>
      if forallb is_digit ds && (digits_value ds <=? 65535)
      then Ok (Some (digits_value ds)) else Raise ValueError
  end.

End urllib.

(** [d.strftime("%d/%m/%Y %H:%M:%S")] for a naive datetime (the year is
    written with four digits, as it is from the year 1000 on). *)
Definition strftime_dmY_HMS (t : Z) : str :=
  let '(y, m, d) := calendar.ord2ymd (t / calendar.us_per_day + 1) in
  let s := t mod calendar.us_per_day / calendar.us_per_second in
  Str (padded 2 d ++ [47%N] ++ padded 2 m ++ [47%N] ++ padded 4 y ++ [32%N] ++
       padded 2 (s / 3600) ++ [58%N] ++ padded 2 (s / 60 mod 60) ++ [58%N] ++
       padded 2 (s mod 60)).

(** ** Code with effects *)

(** A computation over a world [W]: it returns or raises, and leaves the
    world it has reached either way. *)
Definition M (W A : Type) : Type := W → result A * W.

Definition ret {W A} (a : A) : M W A := λ w, (Ok a, w).
Definition raise {W A} (e : exn) : M W A := λ w, (Raise e, w).
Definition lift {W A} (r : result A) : M W A := λ w, (r, w).

Definition bind {W A B} (m : M W A) (k : A → M W B) : M W B :=
  λ w, match m w with
       | (Ok a, w') => k a w'
       | (Raise e, w') => (Raise e, w')
       end.

(** [try: body / except <classes>: handler] *)
Definition try_except {W A} (body : M W A) (caught : exn → bool)
    (handler : exn → M W A) : M W A :=
  λ w, match body w with
       | (Raise e, w') => if caught e then handler e w' else (Raise e, w')
       | done => done
       end.

(** [try: body / finally: final]: an exception of [final] replaces the
    outcome of [body]. *)
Definition try_finally {W A} (body : M W A) (final : M W unit) : M W A :=
  λ w, let '(r, w') := body w in
       match final w' with
       | (Ok _, w'') => (r, w'')
       | (Raise e, w'') => (Raise e, w'')
       end.

(** [except Exception] *)
Definition any_exception (e : exn) : bool := true.

Declare Scope py_scope.
Delimit Scope py_scope with py.
Notation "x <- m ;; k" := (bind m (λ x, k))
  (at level 20, m at level 99, k at level 200, only parsing) : py_scope.
Notation "m ;; k" := (bind m (λ _, k))
  (at level 100, k at level 200, only parsing, right associativity) : py_scope.

(** Levels of the [logging] module; [logging.exception] logs at [ERROR]. *)
Inductive level := DEBUG | INFO | WARNING | ERROR.

End Py.


(* ===================================================================== *)
(** * [wolf_comm/token_auth.py]                                           *)
(* ===================================================================== *)

Module token_auth.
Import Py.
Local Open Scope str_scope.
Local Open Scope py_scope.

(** ** The world of the authenticator *)

(** The three requests of a login, with what the code puts in them. *)
Inductive request :=
  | GetLoginPage (state code_challenge : str)
  | PostLogin (username password verification_token state code_challenge : str)
  | PostToken (code code_verifier : str).

(** What the code reads of a response: the values
    [html.document_fromstring(r.text).xpath('//form/input/@value')] finds,
    [r.url.params] at ['code'], and [r.json()]. *)
Record response := {
  form_input_values : result (list str);
  url_code : option str;
  json_body : result obj;
}.

Inductive event :=
  | Printed (text : str)
  | Logged (lvl : level) (text : str)
  | Requested (r : request).

Record world := {
  now : Z;                    (* [datetime.datetime.now()], naive *)
  cache_file : option str;    (* the text of [_TOKEN_CACHE_FILE], if it exists *)
  disk_writable : bool;       (* whether [write_text] succeeds *)
  trace : list event;         (* prints, log records and requests, oldest first *)
}.

Definition emit (e : event) : M world unit :=
  λ w, (Ok tt, {| now := now w; cache_file := cache_file w;
                  disk_writable := disk_writable w; trace := trace w ++ [e] |}).

Definition print (text : str) : M world unit := emit (Printed text).
Definition log (lvl : level) (text : str) : M world unit := emit (Logged lvl text).

Definition datetime_now : M world Z := λ w, (Ok (now w), w).

(** [_TOKEN_CACHE_FILE.read_text(encoding="utf-8")] *)
Definition read_text : M world str :=
  λ w, match cache_file w with
       | Some text => (Ok text, w)
       | None => (Raise FileNotFoundError, w)
       end.

(** [_TOKEN_CACHE_FILE.write_text(text, encoding="utf-8")] *)
Definition write_text (text : str) : M world unit :=
  λ w, if disk_writable w
       then (Ok tt, {| now := now w; cache_file := Some text;
                       disk_writable := true; trace := trace w |})
       else (Raise OSError, w).

Definition is_request (e : event) : bool :=
  match e with Requested _ => true | _ => false end.

(** The network calls in a trace. *)
Definition requests (t : list event) : list event := List.filter is_request t.

(** ** [class Tokens] *)

Record Tokens := {
  access_token : obj;
  expire_date : datetime;
}.

(** [Tokens.__init__] *)
Definition Tokens_init (access_token expires_in : obj) : M world Tokens :=
  t <- datetime_now ;;
  delta <- lift (timedelta_seconds expires_in) ;;
  expire <- lift (datetime_add t delta) ;;
  ret {| access_token := access_token; expire_date := Naive expire |}.

Definition is_expired (self : Tokens) : M world bool :=
  t <- datetime_now ;;
  lift (datetime_lt (expire_date self) (Naive t)).

Definition to_cache_entry (self : Tokens) : obj :=
  PDict [("access_token", access_token self);
         ("expire_date", PStr (isoformat (expire_date self)))].

Definition from_cache_entry (entry : obj) : result Tokens :=
  rbind (getitem entry "expire_date") (λ text,
  rbind (fromisoformat text) (λ expire_date,
  rbind (getitem entry "access_token") (λ access_token,
  Ok {| access_token := access_token; expire_date := expire_date |}))).

(** ** [class TokenAuth] *)

Section TokenAuth.

(** The collaborators: [pkce.generate_pkce_pair()], [shortuuid.uuid()] and
    the HTTP client, which answers a request or raises. *)
Variable code_verifier code_challenge state : str.
Variable client : request → result response.

(** [self.username] and [self.password] *)
Variable username password : str.

Definition send (r : request) : M world response :=
  emit (Requested r) ;; lift (client r).

Definition _read_cache : M world obj :=
  try_except
    (raw <- read_text ;;
     print "Read token cache file %s (size %d)" ;;
     lift (json_loads raw))
    (λ e, bool_decide (e = FileNotFoundError) || bool_decide (e = JSONDecodeError))
    (λ e, if bool_decide (e = FileNotFoundError) then ret (PDict [])
          else log WARNING "Failed to parse token cache at %s: %s" ;; ret (PDict [])).

Definition _load_cached_tokens : M world (option Tokens) :=
  cache <- _read_cache ;;
  entry <- lift (get cache username) ;;
  if negb (truthy entry) then ret None
  else
    try_except
      (print "Loaded cached token entry for %s" ;;
       tokens <- lift (from_cache_entry entry) ;;
       ret (Some tokens))
      (λ e, bool_decide (e = KeyError) || is_ValueError e)
      (λ _, log WARNING "Invalid cache entry for user %s: %s" ;; ret None).

(** [cache[self.username] = entry]: only a [dict] takes a [str] key. *)
Definition setitem (cache : obj) (k : str) (v : obj) : result obj :=
  match cache with
  | PDict d => Ok (PDict (set_item k v d))
  | _ => Raise TypeError
  end.

Definition _save_cached_tokens (tokens : Tokens) : M world unit :=
  cache <- _read_cache ;;
  cache <- lift (setitem cache username (to_cache_entry tokens)) ;;
  try_except
    (print "Saving cached token entry for %s" ;;
     write_text (json_dumps cache))
    is_OSError
    (λ _, log WARNING "Failed to write token cache to %s: %s").

(** Whether [needle] occurs in [cs]. *)
Fixpoint occurs (needle cs : list N) : bool :=
  match cs with
  | [] => bool_decide (needle = [])
  | _ :: cs' => bool_decide (take (length needle) cs = needle) || occurs needle cs'
  end.

(** ["error" in token_response] *)
Definition has_error (token_response : obj) : result bool :=
  match token_response with
  | PDict d => Ok (bool_decide (is_Some (lookup_item "error" d)))
  | PList l => Ok (existsb (str_eq "error") l)
  | PStr s => Ok (occurs (chars "error") (chars s))
  | _ => Raise TypeError
  end.

(** The login that follows a cache miss: the body of the [try]. *)
Definition login : M world Tokens :=
  r <- send (GetLoginPage state code_challenge) ;;
  log DEBUG "Verification code response: %s" ;;
  elements <- lift (form_input_values r) ;;
  match elements with
  | verification_token :: _ =>
      log DEBUG "Verification token: %s" ;;
      r <- send (PostLogin username password verification_token state code_challenge) ;;
      log DEBUG "Code response: %s" ;;
      code <- lift (match url_code r with Some c => Ok c | None => Raise KeyError end) ;;
      r <- send (PostToken code code_verifier) ;;
      token_response <- lift (json_body r) ;;
      log DEBUG "Token response: %s" ;;
      err <- lift (has_error token_response) ;;
      if err : bool then raise InvalidAuth
      else
        log INFO "Successfully authenticated" ;;
        access <- lift (get token_response "access_token") ;;
        expires_in <- lift (get token_response "expires_in") ;;
        tokens <- Tokens_init access expires_in ;;
        log INFO "Caching token that expires at %s" ;;
        _save_cached_tokens tokens ;;
        ret tokens
  | [] => raise InvalidAuth
  end.

Definition fresh_login : M world Tokens :=
  try_except login any_exception
    (λ _, log ERROR "An error occurred: %s" ;; raise InvalidAuth).

(** [TokenAuth.token] *)
Definition token : M world Tokens :=
  cached <- _load_cached_tokens ;;
  match cached with
  | Some cached =>
      expired <- is_expired cached ;;
      if expired : bool then
        log INFO "Cached token for user %s expired, requesting a new one" ;;
        fresh_login
      else
        print "Using cached token for user %s" ;;
        ret cached
  | None => fresh_login
  end.

End TokenAuth.

End token_auth.

(* ===================================================================== *)
(** * [wolf.py]                                                           *)
(* ===================================================================== *)

Module wolf.
Import Py.
Local Open Scope str_scope.
Local Open Scope py_scope.

(** ** Data *)

(** [wolf_comm.models.Device] *)
Module Device.
Record t := { id : Z; gateway : Z; name : str }.
End Device.

(** A parameter of the catalog, as [fetch_parameters] returns it and as
    [_build_cached_parameters] rebuilds it. *)
Module Param.
Record t := {
  name : str;
  parameter_id : Z;
  value_id : Z;
  bundle_id : Z;
  read_only : bool;
  parent : str;
}.
End Param.

(** A reading, as [fetch_value] returns it. *)
Module Value.
Record t := { value_id : Z; value : obj; state : obj }.
End Value.

(** The payload of a write: [{VALUE_ID: target.value_id, STATE: str(value)}].
    [STATE] holds the value whose [str] is sent. *)
Record write_payload := { VALUE_ID : Z; STATE : obj }.

(** The dict [_resolve_mqtt_settings] returns. *)
Record mqtt_settings := {
  host : str;
  port : Z;
  username : option str;
  password : obj;
  use_tls : bool;
}.

(** A Status: the timestamp under ["time"], and under each parent the
    values of its parameters by name. *)
Inductive entry :=
  | Stamp (text : str)
  | Group (values : gmap str obj).

Abbreviation status := (gmap str entry).

(** ** The world of the bridge *)

(** The MQTT client object with the attributes [_configure_mqtt_client]
    attaches to it. *)
Record mqtt_client := {
  _wolf_mqtt_settings : option mqtt_settings;
  _wolf_connected : bool;
  _wolf_persistent : bool;
}.

Inductive event :=
  | Printed (text : str)
  | Logged (lvl : level) (text : str)
  (* the device protocol *)
  | WriteValue (gateway_id system_id bundle_id : Z) (payload : write_payload)
  (* the MQTT client; [Publish] carries the status whose [json.dumps] is sent *)
  | UsernamePwSet (username : str) (password : obj)
  | TlsSet
  | Connect (host : str) (port : Z)
  | Publish (topic : str) (body : status) (retain : bool)
  | Disconnect
  | LoopStart.

Record world := {
  now : Z;                    (* [datetime.now()], naive *)
  cache_file : option bytes;  (* the bytes of [_SYSTEM_CONTEXT_CACHE], if it exists *)
  client : mqtt_client;       (* the MQTT client object *)
  trace : list event;         (* prints, log records and calls, oldest first *)
}.

Definition emit (e : event) : M world unit :=
  λ w, (Ok tt, {| now := now w; cache_file := cache_file w;
                  client := client w; trace := trace w ++ [e] |}).

Definition print (text : str) : M world unit := emit (Printed text).
Definition log (lvl : level) (text : str) : M world unit := emit (Logged lvl text).
Definition datetime_now : M world Z := λ w, (Ok (now w), w).

Definition get_client : M world mqtt_client := λ w, (Ok (client w), w).
Definition set_client (c : mqtt_client) : M world unit :=
  λ w, (Ok tt, {| now := now w; cache_file := cache_file w;
                  client := c; trace := trace w |}).

(** [_SYSTEM_CONTEXT_CACHE.exists()] *)
Definition path_exists : M world bool :=
  λ w, (Ok (match cache_file w with Some _ => true | None => false end), w).

(** [_SYSTEM_CONTEXT_CACHE.read_text(encoding="utf-8")] *)
Definition read_text : M world str :=
  λ w, match cache_file w with
       | Some b => (read_as_text b, w)
       | None => (Raise FileNotFoundError, w)
       end.

(** [_SYSTEM_CONTEXT_CACHE.write_text(text, encoding="utf-8")] for a text of
    ASCII characters, which the output of [json.dumps] is: the file then
    holds its code points. *)
Definition write_text (text : str) : M world unit :=
  λ w, (Ok tt, {| now := now w; cache_file := Some (encode_ascii text);
                  client := client w; trace := trace w |}).

Definition is_write (e : event) : bool :=
  match e with WriteValue _ _ _ _ => true | _ => false end.
Definition is_connect (e : event) : bool :=
  match e with Connect _ _ => true | _ => false end.
Definition is_mqtt (e : event) : bool :=
  match e with
  | UsernamePwSet _ _ | TlsSet | Connect _ _ | Publish _ _ _ | Disconnect | LoopStart => true
  | _ => false
  end.

(** The calls of [write_value] in a trace, and the calls on the MQTT client. *)
Definition writes (t : list event) : list event := List.filter is_write t.
Definition mqtt_calls (t : list event) : list event := List.filter is_mqtt t.

(** ** The system-context cache *)

Definition _load_cached_system_context : M world (option obj) :=
  present <- path_exists ;;
  if negb present then ret None
  else
    loaded <- try_except
                (raw <- read_text ;;
                 cache <- lift (json_loads raw) ;;
                 ret (Some cache))
                (λ e, bool_decide (e = FileNotFoundError)
                      || bool_decide (e = JSONDecodeError))
                (λ _, ret None) ;;
    match loaded with
    | None => ret None
    | Some cache =>
        expires_at <- lift (get cache "expires_at") ;;
        if negb (truthy expires_at) then ret None
        else
          parsed <- try_except
                      (d <- lift (fromisoformat expires_at) ;; ret (Some d))
                      is_ValueError (λ _, ret None) ;;
          match parsed with
          | None => ret None
          | Some expires_at_dt =>
              t <- datetime_now ;;
              late <- lift (datetime_ge (Naive t) expires_at_dt) ;;
              if late : bool then ret None else ret (Some cache)
          end
    end.

Definition system_entry (system : Device.t) : obj :=
  PDict [("id", PInt (Device.id system));
         ("gateway", PInt (Device.gateway system));
         ("name", PStr (Device.name system))].

Definition parameter_entry (parameter : Param.t) : obj :=
  PDict [("name", PStr (Param.name parameter));
         ("parameter_id", PInt (Param.parameter_id parameter));
         ("value_id", PInt (Param.value_id parameter));
         ("bundle_id", PInt (Param.bundle_id parameter));
         ("read_only", PBool (Param.read_only parameter));
         ("parent", PStr (Param.parent parameter))].

(** The [data] of [_write_system_context_cache], given the expiry. *)
Definition cache_data (system_list : list Device.t) (parameters : list Param.t)
    (expires_at : Z) : obj :=
  PDict [("expires_at", PStr (isoformat (Naive expires_at)));
         ("systems", PList (map system_entry system_list));
         ("parameters", PList (map parameter_entry parameters))].

Definition _write_system_context_cache (system_list : list Device.t)
    (parameters : list Param.t) : M world unit :=
  t <- datetime_now ;;
  expires_at <- lift (datetime_add t one_day) ;;
  write_text (json_dumps (cache_data system_list parameters expires_at)).

(** ** Command payloads *)

Definition _parse_set_payload (payload : str) : result (obj * obj) :=
  let payload := strip payload in
  if bool_decide (chars payload = []) then Raise ValueError
  else
    match json_loads payload with
    | Raise JSONDecodeError =>
        match split_None_1 payload with
        | [name; value] => Ok (PStr name, PStr value)
        | _ => Raise ValueError
        end
    | Raise e => Raise e
    | Ok data =>
        rbind (get data "name") (λ n1,
        rbind (if truthy n1 then Ok n1
               else rbind (get data "parameter") (λ n2,
                    if truthy n2 then Ok n2 else get data "parameter_name")) (λ name,
        rbind (get data "value") (λ value,
        if is_None name || is_None value
        then Raise ValueError
        else Ok (name, value))))
    end.

(** ** MQTT settings *)

Definition _parse_mqtt_url (value : str) : result (str * Z * str) :=
  rbind (urllib.urlparse value "") (λ parsed,
  rbind (match urllib.hostname parsed with
         | Some _ => Ok parsed
         | None => urllib.urlparse (Str (chars "//" ++ chars value)) "mqtt"
         end) (λ parsed,
  match urllib.hostname parsed with
  | None => Raise ValueError
  | Some host =>
      let scheme :=
        lower (if bool_decide (chars (urllib.scheme parsed) = [])
               then "mqtt" else urllib.scheme parsed) in
      rbind (urllib.port parsed) (λ port,
      let port :=
        match port with
        | Some port => port
        | None =>
            if bool_decide (scheme = "mqtts") || bool_decide (scheme = "ssl")
            then 8883 else 1883
        end in
      Ok (host, port, scheme))
  end)).

Definition _resolve_mqtt_settings (mqtt_section : obj) : result (option mqtt_settings) :=
  if negb (truthy mqtt_section) then Ok None
  else
    rbind (get mqtt_section "url") (λ url,
    if negb (truthy url) then Ok None
    else
      rbind (match url with
             | PStr url => _parse_mqtt_url url
             | _ => Raise AttributeError
             end) (λ '(host, port, scheme),
      rbind (get mqtt_section "username") (λ username,
      let username :=
        match username with
        | PStr username =>
            let username := strip username in
            if bool_decide (lower username = "anonymous")
               || bool_decide (username = "")
            then None else Some username
        | _ => None
        end in
      rbind (get mqtt_section "password") (λ password,
      let password :=
        match password with
        | PStr p => if bool_decide (p = "") then PNone else password
        | _ => password
        end in
      let use_tls := bool_decide (scheme = "mqtts") || bool_decide (scheme = "ssl") in
      Ok (Some {| host := host; port := port; username := username;
                  password := password; use_tls := use_tls |}))))).

(** ** Status building *)

(** [next((x for x in parameters if x.value_id == val.value_id), None)] *)
Definition find_by_value_id (parameters : list Param.t) (value_id : Z) : option Param.t :=
  List.find (λ x, bool_decide (Param.value_id x = value_id)) parameters.

(** [status.setdefault(parent, {})[name] = value]: the entry under ["time"]
    is a [str], which takes no item. *)
Definition put (parent name : str) (value : obj) (st : status) : result status :=
  match st !! parent with
  | None => Ok (<[parent := Group {[name := value]}]> st)
  | Some (Group g) => Ok (<[parent := Group (<[name := value]> g)]> st)
  | Some (Stamp _) => Raise TypeError
  end.

(** The loop of [_build_status]. *)
Fixpoint build_loop (parameters : list Param.t) (values : list Value.t)
    (st : status) : M world status :=
  match values with
  | [] => ret st
  | val :: values =>
      match find_by_value_id parameters (Value.value_id val) with
      | None =>
          log DEBUG "Skipping unknown value %s" ;;
          build_loop parameters values st
      | Some par =>
          st <- lift (put (Param.parent par) (Param.name par) (Value.value val) st) ;;
          build_loop parameters values st
      end
  end.

Definition _build_status (parameters : list Param.t) (values : list Value.t)
    : M world status :=
  t <- datetime_now ;;
  build_loop parameters values {["time" := Stamp (strftime_dmY_HMS t)]}.

(** ** The write path and the MQTT client *)

Section Collaborators.

(** Whether [paho.mqtt.client] could be imported ([mqtt is not None]). *)
Variable paho_installed : bool.
(** The exception a call to a collaborator raises, if any, given the trace
    before it. *)
Variable fails : list event → event → option exn.
(** [loop.is_running()], given the trace so far. *)
Variable loop_is_running : list event → bool.

Definition call (e : event) : M world unit :=
  λ w, match fails (trace w) e with
       | Some x => (Raise x, (emit e w).2)
       | None => emit e w
       end.

Definition is_running : M world bool := λ w, (Ok (loop_is_running (trace w)), w).

(** [next((param for param in parameters if param.name == name), None)] *)
Definition find_by_name (parameters : list Param.t) (name : obj) : option Param.t :=
  List.find (λ param, str_eq (Param.name param) name) parameters.

Definition _set_parameter (gateway_id system_id : Z) (parameters : list Param.t)
    (name value : obj) : M world unit :=
  print "Setting {name} to {value}" ;;
  match find_by_name parameters name with
  | None => log WARNING "Parameter %s not found, skipping write"
  | Some target =>
      let payload := {| VALUE_ID := Param.value_id target; STATE := value |} in
      let coroutine :=
        call (WriteValue gateway_id system_id (Param.bundle_id target) payload) in
      running <- is_running ;;
      if running : bool then
        written <- try_except (coroutine ;; ret true) any_exception
                     (λ _, log ERROR "MQTT-triggered write failed" ;; ret false) ;;
        if written : bool then log DEBUG "Write response: %s" else ret tt
      else
        coroutine ;;
        log DEBUG "Write response: %s"
  end.

(** The handler [_create_mqtt_set_handler] returns, applied to the payload
    of a message. *)
Definition _on_message (gateway_id system_id : Z) (parameters : list Param.t)
    (msg_payload : bytes) : M world unit :=
  let payload := decode_utf8_ignore msg_payload in
  parsed <- try_except
              (r <- lift (_parse_set_payload payload) ;; ret (Some r))
              is_ValueError
              (λ _, log WARNING "Ignoring MQTT wolf/set payload: %s (%s)" ;; ret None) ;;
  match parsed with
  | None => ret tt
  | Some (name, value) =>
      log INFO "MQTT wolf/set request for %s -> %s" ;;
      _set_parameter gateway_id system_id parameters name value
  end.

Definition _configure_mqtt_client (settings : mqtt_settings) : M world unit :=
  if negb paho_installed then raise RuntimeError
  else
    match username settings with
    | Some u =>
        if truthy (PStr u) then call (UsernamePwSet u (password settings)) else ret tt
    | None => ret tt
    end ;;
    (if use_tls settings then call TlsSet else ret tt) ;;
    set_client {| _wolf_mqtt_settings := Some settings;
                  _wolf_connected := false;
                  _wolf_persistent := false |}.

Definition _ensure_mqtt_connected : M world unit :=
  c <- get_client ;;
  if _wolf_connected c then ret tt
  else
    match _wolf_mqtt_settings c with
    | None => raise RuntimeError
    | Some settings =>
        call (Connect (host settings) (port settings)) ;;
        c <- get_client ;;
        set_client {| _wolf_mqtt_settings := _wolf_mqtt_settings c;
                      _wolf_connected := true;
                      _wolf_persistent := _wolf_persistent c |}
    end.

Definition _start_mqtt_set_listener : M world unit :=
  if negb paho_installed then raise RuntimeError
  else
    c <- get_client ;;
    set_client {| _wolf_mqtt_settings := _wolf_mqtt_settings c;
                  _wolf_connected := _wolf_connected c;
                  _wolf_persistent := true |} ;;
    _ensure_mqtt_connected ;;
    call LoopStart.

Definition _publish_status (st : status) : M world unit :=
  if negb paho_installed then
    log WARNING "Skipping MQTT status publish because paho-mqtt is not installed."
  else
    _ensure_mqtt_connected ;;
    try_finally
      (try_except (call (Publish "wolf/status" st true))
         any_exception
         (λ _, log ERROR "Failed to publish Wolf status via MQTT"))
      (c <- get_client ;;
       if negb (_wolf_persistent c) then call Disconnect else ret tt).

End Collaborators.

End wolf.

(* ===================================================================== *)
(** * Sample data                                                         *)
(* ===================================================================== *)

(** Worlds, catalogs and collaborators to run the code on. *)
Module sample.
Import Py.
Local Open Scope str_scope.

(** 2024-01-01T00:00:00 and 2024-01-02T00:00:00 *)
Definition new_year : Z := 63839664000000000.
Definition next_day : Z := 63839750400000000.

Definition boiler_heating : wolf.Param.t :=
  {| wolf.Param.name := "Heating"; wolf.Param.parameter_id := 1;
     wolf.Param.value_id := 7; wolf.Param.bundle_id := 100;
     wolf.Param.read_only := false; wolf.Param.parent := "Boiler" |}.

(** A second parameter with the name and the parent of the first. *)
Definition boiler_heating' : wolf.Param.t :=
  {| wolf.Param.name := "Heating"; wolf.Param.parameter_id := 2;
     wolf.Param.value_id := 8; wolf.Param.bundle_id := 200;
     wolf.Param.read_only := false; wolf.Param.parent := "Boiler" |}.

Definition boiler_pressure : wolf.Param.t :=
  {| wolf.Param.name := "Pressure"; wolf.Param.parameter_id := 3;
     wolf.Param.value_id := 9; wolf.Param.bundle_id := 100;
     wolf.Param.read_only := true; wolf.Param.parent := "Boiler" |}.

(** A parameter whose parent is the word the timestamp is stored under. *)
Definition time_zone : wolf.Param.t :=
  {| wolf.Param.name := "Zone"; wolf.Param.parameter_id := 4;
     wolf.Param.value_id := 10; wolf.Param.bundle_id := 300;
     wolf.Param.read_only := true; wolf.Param.parent := "time" |}.

Definition reading (value_id : Z) (value : str) : wolf.Value.t :=
  {| wolf.Value.value_id := value_id; wolf.Value.value := PStr value;
     wolf.Value.state := PNone |}.

(** No client configured yet. *)
Definition no_client : wolf.mqtt_client :=
  {| wolf._wolf_mqtt_settings := None; wolf._wolf_connected := false;
     wolf._wolf_persistent := false |}.

(** Settings for a broker without credentials and without TLS. *)
Definition broker : wolf.mqtt_settings :=
  {| wolf.host := "broker.example"; wolf.port := 1883; wolf.username := None;
     wolf.password := PNone; wolf.use_tls := false |}.

(** The world of the bridge at a time, with the bytes of a cache file or
    none, and with the cache file that holds an ASCII text. *)
Definition bridge_raw (t : Z) (file : option bytes) : wolf.world :=
  {| wolf.now := t; wolf.cache_file := file; wolf.client := no_client;
     wolf.trace := [] |}.

Definition bridge (t : Z) (file : option str) : wolf.world :=
  bridge_raw t (encode_ascii <$> file).

(** The world of the authenticator at a time, with a cache file or none. *)
Definition auth (t : Z) (file : option str) : token_auth.world :=
  {| token_auth.now := t; token_auth.cache_file := file;
     token_auth.disk_writable := true; token_auth.trace := [] |}.

(** An HTTP client without a network: every request fails. *)
Definition offline : token_auth.request → result token_auth.response :=
  λ _, Raise (Failure 0).

(** A server that accepts the login: a page with one form value, a redirect
    with a code, and a token that lasts an hour. *)
Definition online : token_auth.request → result token_auth.response :=
  λ r, match r with
       | token_auth.GetLoginPage _ _ =>
           Ok {| token_auth.form_input_values := Ok ["CfDJ8"];
                 token_auth.url_code := None;
                 token_auth.json_body := Raise JSONDecodeError |}
       | token_auth.PostLogin _ _ _ _ _ =>
           Ok {| token_auth.form_input_values := Ok [];
                 token_auth.url_code := Some "4F2A";
                 token_auth.json_body := Raise JSONDecodeError |}
       | token_auth.PostToken _ _ =>
           Ok {| token_auth.form_input_values := Ok [];
                 token_auth.url_code := None;
                 token_auth.json_body :=
                   Ok (PDict [("access_token", PStr "eyJ"); ("expires_in", PInt 3600)]) |}
       end.

(** Collaborators that never raise, and an event loop that is not running. *)
Definition never_fails : list wolf.event → wolf.event → option exn := λ _ _, None.
Definition not_running : list wolf.event → bool := λ _, false.

End sample.

(* ===================================================================== *)
(** * Vocabulary of the statements                                        *)
(* ===================================================================== *)

Module spec.
Import Py.
Local Open Scope str_scope.

(** The [mqtt] section [_load_credentials] builds. *)
Definition mqtt_section (url user pw : obj) : obj :=
  PDict [("url", url); ("username", user); ("password", pw)].

(** The key path a reading is stored at: the parent and the name of the
    parameter with its value id, if the catalog has one. *)
Definition path_of (parameters : list wolf.Param.t) (val : wolf.Value.t)
    : option (str * str) :=
  par ← wolf.find_by_value_id parameters (wolf.Value.value_id val);
  Some (wolf.Param.parent par, wolf.Param.name par).

(** Readings that are stored at the same key path carry the same value. *)
Definition agree_on_paths (parameters : list wolf.Param.t)
    (values : list wolf.Value.t) : Prop :=
  ∀ v1 v2, v1 ∈ values → v2 ∈ values →
    is_Some (path_of parameters v1) →
    path_of parameters v1 = path_of parameters v2 →
    wolf.Value.value v1 = wolf.Value.value v2.

(** One turn of the loop of [_build_status], on the outcome so far. *)
Definition turn (parameters : list wolf.Param.t) (r : result wolf.status)
    (val : wolf.Value.t) : result wolf.status :=
  rbind r (λ st,
    match wolf.find_by_value_id parameters (wolf.Value.value_id val) with
    | None => Ok st
    | Some par =>
        wolf.put (wolf.Param.parent par) (wolf.Param.name par) (wolf.Value.value val) st
    end).

(** A reading whose parameter has the parent ["time"]. *)
Definition under_time (parameters : list wolf.Param.t) (val : wolf.Value.t) : Prop :=
  ∃ par, wolf.find_by_value_id parameters (wolf.Value.value_id val) = Some par
         ∧ wolf.Param.parent par = "time".

(** Two outcomes of the loop that differ at most in the timestamp. *)
Definition stamped (st : wolf.status) : Prop :=
  ∃ text, st !! "time" = Some (wolf.Stamp text).

Definition alike (r1 r2 : result wolf.status) : Prop :=
  match r1, r2 with
  | Ok st1, Ok st2 =>
      delete "time" st1 = delete "time" st2 ∧ stamped st1 ∧ stamped st2
  | Raise e1, Raise e2 => e1 = e2
  | _, _ => False
  end.

(** The outcome of [_build_status] with the timestamp left out. *)
Definition without_time (r : result wolf.status) : result wolf.status :=
  rmap (delete "time") r.

(** The value a Status holds for a name under a parent. *)
Definition reading_at (st : wolf.status) (parent name : str) : option obj :=
  match st !! parent with
  | Some (wolf.Group g) => g !! name
  | _ => None
  end.

(** The value of the last of the readings that are stored at a key path. *)
Definition last_at (parameters : list wolf.Param.t) (values : list wolf.Value.t)
    (parent name : str) : option obj :=
  wolf.Value.value <$>
    last (List.filter
            (λ val, bool_decide (path_of parameters val = Some (parent, name)))
            values).

(** A reading the catalog has a parameter for. *)
Definition known (parameters : list wolf.Param.t) (val : wolf.Value.t) : bool :=
  bool_decide (is_Some (wolf.find_by_value_id parameters (wolf.Value.value_id val))).

(** A computation of the authenticator is quiet when it leaves the clock
    and the file alone and makes no request: it only prints and logs. *)
Definition quiet {A} (m : M token_auth.world A) : Prop :=
  ∀ w, token_auth.now (m w).2 = token_auth.now w
       ∧ token_auth.cache_file (m w).2 = token_auth.cache_file w
       ∧ token_auth.disk_writable (m w).2 = token_auth.disk_writable w
       ∧ token_auth.requests (token_auth.trace (m w).2)
         = token_auth.requests (token_auth.trace w).

(** It extends the trace when what was recorded stays. *)
Definition extends {A} (m : M token_auth.world A) : Prop :=
  ∀ w, ∃ more, token_auth.trace (m w).2 = token_auth.trace w ++ more.

(** What [_read_cache] makes of the cache file: the object its text denotes,
    and the empty dict when there is no file or its text is no JSON. *)
Definition cache_of (file : option str) : obj :=
  match file with
  | Some raw =>
      match json_loads raw with
      | Ok cache => cache
      | Raise _ => PDict []
      end
  | None => PDict []
  end.

(** The entries [from_cache_entry] reads without a [TypeError]: objects
    whose [expire_date], if they have one, is a text. *)
Definition entry_typed (entry : obj) : bool :=
  match entry with
  | PDict e =>
      match lookup_item "expire_date" e with
      | Some (PStr _) | None => true
      | Some _ => false
      end
  | _ => false
  end.

(** The caches [_load_cached_tokens] reads for a user without raising:
    objects in which the entry of the user is absent, falsy or typed. *)
Definition readable_for (username : str) (cache : obj) : bool :=
  match cache with
  | PDict d =>
      let entry := default PNone (lookup_item username d) in
      negb (truthy entry) || entry_typed entry
  | _ => false
  end.

(** A computation of the authenticator is silent when it makes no request,
    and keeps the file when it leaves the cache file as it is. *)
Definition silent {A} (m : M token_auth.world A) : Prop :=
  ∀ w, token_auth.requests (token_auth.trace (m w).2)
       = token_auth.requests (token_auth.trace w).

Definition keeps_file {A} (m : M token_auth.world A) : Prop :=
  ∀ w, token_auth.cache_file (m w).2 = token_auth.cache_file w.

(** It fails cleanly when it has left the cache file as it was whenever it
    raises. *)
Definition fails_cleanly {A} (m : M token_auth.world A) : Prop :=
  ∀ w e, (m w).1 = Raise e →
         token_auth.cache_file (m w).2 = token_auth.cache_file w.

(** The world [w] with events appended, and with the cache file replaced as
    well when the disk takes the write. *)
Definition after (w : token_auth.world) (more : list token_auth.event)
    : token_auth.world :=
  {| token_auth.now := token_auth.now w;
     token_auth.cache_file := token_auth.cache_file w;
     token_auth.disk_writable := token_auth.disk_writable w;
     token_auth.trace := token_auth.trace w ++ more |}.

Definition stored (w : token_auth.world) (text : str)
    (more : list token_auth.event) : token_auth.world :=
  {| token_auth.now := token_auth.now w;
     token_auth.cache_file :=
       if token_auth.disk_writable w then Some text else token_auth.cache_file w;
     token_auth.disk_writable := token_auth.disk_writable w;
     token_auth.trace := token_auth.trace w ++ more |}.

(** A computation only logs when all it does to the world is to append
    prints and log records to the trace. *)
Definition only_logs {A} (m : M token_auth.world A) : Prop :=
  ∀ w, ∃ more, (m w).2 = after w more ∧ token_auth.requests more = [].

(** The requests of one login, read off the protocol: the login page; then,
    if the page has a form value, the credentials with the first one; then,
    if the redirect carries a code, the exchange of the code with the PKCE
    verifier.  A step that fails is the last. *)
Definition login_requests (code_verifier code_challenge state : str)
    (client : token_auth.request → result token_auth.response)
    (username password : str) : list token_auth.event :=
  let page := token_auth.GetLoginPage state code_challenge in
  token_auth.Requested page ::
  match rbind (client page) token_auth.form_input_values with
  | Ok (verification_token :: _) =>
      let submit :=
        token_auth.PostLogin username password verification_token state
          code_challenge in
      token_auth.Requested submit ::
      match client submit with
      | Ok r =>
          match token_auth.url_code r with
          | Some code =>
              [token_auth.Requested (token_auth.PostToken code code_verifier)]
          | None => []
          end
      | Raise _ => []
      end
  | _ => []
  end.

End spec.

(* ===================================================================== *)
(** * Properties                                                          *)
(* ===================================================================== *)

Import Py.
Local Open Scope str_scope.

(** ** The runtime *)

Lemma str_eq_spec (s : str) (x : obj) : str_eq s x = true ↔ PStr s = x.
Proof.
  destruct x; simpl; try (split; [discriminate | congruence]).
  rewrite bool_decide_eq_true. split; congruence.
Qed.

Lemma find_app_first {A} (f : A → bool) (before : list A) (x : A) (after : list A) :
  (∀ y, y ∈ before → f y = false) → f x = true →
  List.find f (before ++ x :: after) = Some x.
Proof.
  intros Hbefore Hx. induction before as [|y before IH]; simpl.
  - by rewrite Hx.
  - rewrite (Hbefore y) by left. apply IH. intros z Hz. apply Hbefore. by right.
Qed.

Lemma find_all_false {A} (f : A → bool) (l : list A) :
  (∀ y, y ∈ l → f y = false) → List.find f l = None.
Proof.
  intros Hl. induction l as [|y l IH]; simpl; [done|].
  rewrite (Hl y) by left. apply IH. intros z Hz. apply Hl. by right.
Qed.

(** ** The JSON scanner has fuel enough *)

Section json_fuel.
Import json.

Lemma lstrip_by_length p cs : (length (lstrip_by p cs) ≤ length cs)%nat.
Proof. induction cs as [|c cs IH]; simpl; [lia|]. destruct (p c); simpl; lia. Qed.

Lemma skip_ws_length cs : (length (skip_ws cs) ≤ length cs)%nat.
Proof. apply lstrip_by_length. Qed.

Lemma break_at_length p cs : (length (break_at p cs).2 ≤ length cs)%nat.
Proof.
  induction cs as [|c cs IH]; simpl; [lia|].
  destruct (p c); simpl; [lia|]. destruct (break_at p cs). simpl in *. lia.
Qed.

Lemma strip_prefix_length p cs r :
  strip_prefix p cs = Some r → (length r + length p = length cs)%nat.
Proof.
  revert cs. induction p as [|a p IH]; intros cs; simpl.
  - intros [= <-]. lia.
  - destruct cs as [|c cs]; [done|]. destruct (a =? c)%N; [|done].
    intros H. apply IH in H. simpl. lia.
Qed.

Lemma scan_string_length cs acc s r :
  scan_string cs acc = Some (s, r) → (length r < length cs)%nat.
Proof.
  remember (length cs) as n eqn:Hn. revert cs acc Hn.
  induction n as [n IH] using lt_wf_ind. intros cs acc -> H.
  assert (Hrec : ∀ cs' acc', scan_string cs' acc' = Some (s, r) →
                   (length cs' < length cs)%nat → (length r < length cs)%nat).
  { intros cs' acc' H' Hlt. specialize (IH _ Hlt cs' acc' eq_refl H'). lia. }
  clear IH. destruct cs as [|c cs]; [done|]. cbn [scan_string] in H.
  repeat (case_match; simplify_eq);
    try (cbn [length]; lia);
    (eapply Hrec; [eassumption | cbn [length]; lia]).
Qed.

Lemma scan_number_length cs v r :
  scan_number cs = Some (v, r) → (length r < length cs)%nat.
Proof.
  unfold scan_number, span_digits. intros H.
  repeat (case_match; simplify_eq; simpl in *);
    repeat match goal with
           | E : break_at ?p ?l = (_, ?r) |- _ =>
               let L := fresh in
               pose proof (break_at_length p l) as L; rewrite E in L;
               simpl in L; clear E
           end; lia.
Qed.

Ltac measure_scans :=
  repeat match goal with
         | E : scan_string _ _ = Some _ |- _ => apply scan_string_length in E
         | E : scan_number _ = Some _ |- _ => apply scan_number_length in E
         | E : strip_prefix _ _ = Some _ |- _ => apply strip_prefix_length in E
         | E : skip_ws ?l = _ |- _ =>
             let L := fresh in
             pose proof (skip_ws_length l) as L; rewrite E in L; clear E
         | _ : context [skip_ws ?l] |- _ =>
             lazymatch goal with
             | _ : (length (skip_ws l) ≤ _)%nat |- _ => fail
             | _ => pose proof (skip_ws_length l)
             end
         | |- context [skip_ws ?l] =>
             lazymatch goal with
             | _ : (length (skip_ws l) ≤ _)%nat |- _ => fail
             | _ => pose proof (skip_ws_length l)
             end
         end.

Lemma scan_consumes fuel :
  (∀ cs v r, scan_once fuel cs = Scanned v r → (length r < length cs)%nat) ∧
  (∀ cs acc v r, scan_elements fuel cs acc = Scanned v r → (length r < length cs)%nat) ∧
  (∀ cs acc v r, scan_members fuel cs acc = Scanned v r → (length r < length cs)%nat).
Proof.
  induction fuel as [|fuel (IHonce & IHelements & IHmembers)];
    [by repeat split|].
  split; [|split].
  - intros cs v r H. cbn [scan_once] in H. unfold scan_word, of_option in H.
    repeat (case_match; simplify_eq);
      repeat match goal with
             | E : scan_elements _ _ _ = Scanned _ _ |- _ => apply IHelements in E
             | E : scan_members _ _ _ = Scanned _ _ |- _ => apply IHmembers in E
             end;
      measure_scans; cbn [length chars] in *; lia.
  - intros cs acc v r H. cbn [scan_elements] in H.
    repeat (case_match; simplify_eq);
      repeat match goal with
             | E : scan_once _ _ = Scanned _ _ |- _ => apply IHonce in E
             | E : scan_elements _ _ _ = Scanned _ _ |- _ => apply IHelements in E
             end;
      measure_scans; cbn [length] in *; lia.
  - intros cs acc v r H. cbn [scan_members] in H.
    repeat (case_match; simplify_eq);
      repeat match goal with
             | E : scan_once _ _ = Scanned _ _ |- _ => apply IHonce in E
             | E : scan_members _ _ _ = Scanned _ _ |- _ => apply IHmembers in E
             end;
      measure_scans; cbn [length] in *; lia.
Qed.

Ltac measure_scanned :=
  repeat match goal with
         | E : scan_once ?f _ = Scanned _ _ |- _ =>
             apply (proj1 (scan_consumes f)) in E
         | E : scan_elements ?f _ _ = Scanned _ _ |- _ =>
             apply (proj1 (proj2 (scan_consumes f))) in E
         | E : scan_members ?f _ _ = Scanned _ _ |- _ =>
             apply (proj2 (proj2 (scan_consumes f))) in E
         end.

(** With two units of fuel for each character the scanner is never cut
    short. *)
Lemma scan_never_cut fuel :
  (∀ cs, (2 * length cs < fuel)%nat → scan_once fuel cs ≠ Cut) ∧
  (∀ cs acc, (2 * length cs + 1 < fuel)%nat → scan_elements fuel cs acc ≠ Cut) ∧
  (∀ cs acc, (2 * length cs + 1 < fuel)%nat → scan_members fuel cs acc ≠ Cut).
Proof.
  induction fuel as [|fuel (IHonce & IHelements & IHmembers)];
    [repeat split; intros; lia|].
  split; [|split].
  - intros cs Hfuel H. cbn [scan_once] in H. unfold scan_word, of_option in H.
    repeat (case_match; simplify_eq);
      match goal with
      | E : scan_elements fuel ?l ?a = Cut |- _ => apply (IHelements l a); [|done]
      | E : scan_members fuel ?l ?a = Cut |- _ => apply (IHmembers l a); [|done]
      end;
      measure_scans; cbn [length] in *; lia.
  - intros cs acc Hfuel H. cbn [scan_elements] in H.
    repeat (case_match; simplify_eq);
      match goal with
      | E : scan_elements fuel ?l ?a = Cut |- _ => apply (IHelements l a); [|done]
      | E : scan_once fuel ?l = Cut |- _ => apply (IHonce l); [|done]
      end;
      measure_scanned; measure_scans; cbn [length] in *; lia.
  - intros cs acc Hfuel H. cbn [scan_members] in H.
    repeat (case_match; simplify_eq);
      match goal with
      | E : scan_members fuel ?l ?a = Cut |- _ => apply (IHmembers l a); [|done]
      | E : scan_once fuel ?l = Cut |- _ => apply (IHonce l); [|done]
      end;
      measure_scanned; measure_scans; cbn [length] in *; lia.
Qed.

Lemma scan_once_not_cut cs : scan_once (fuel_for cs) cs ≠ Cut.
Proof. apply scan_never_cut. unfold fuel_for. lia. Qed.

(** [json.loads] returns an object or raises [JSONDecodeError]. *)
Lemma loads_total s : (∃ v, json.loads s = Ok v) ∨ json.loads s = Raise JSONDecodeError.
Proof.
  unfold json.loads. pose proof (scan_once_not_cut (skip_ws (chars s))) as Hcut.
  destruct (scan_once _ _) as [v r| |]; [|by right|done].
  destruct (skip_ws r); eauto.
Qed.

End json_fuel.

(** ** The write path (wolf.py) *)

Section write_path.
Import wolf.
Variable fails : list event → event → option exn.
Variable loop_is_running : list event → bool.

Lemma find_by_name_none parameters name :
  (∀ p, p ∈ parameters → PStr (Param.name p) ≠ name) →
  find_by_name parameters name = None.
Proof.
  intros Hno. apply find_all_false. intros p Hp.
  apply not_true_is_false. rewrite str_eq_spec. by apply Hno.
Qed.

Lemma find_by_name_first before target after name :
  PStr (Param.name target) = name →
  (∀ p, p ∈ before → PStr (Param.name p) ≠ name) →
  find_by_name (before ++ target :: after) name = Some target.
Proof.
  intros Htarget Hbefore. apply find_app_first.
  - intros p Hp. apply not_true_is_false. rewrite str_eq_spec. by apply Hbefore.
  - by apply str_eq_spec.
Qed.

Lemma writes_app t1 t2 : writes (t1 ++ t2) = writes t1 ++ writes t2.
Proof. apply List.filter_app. Qed.

(** C9. A write for a name that no parameter of the catalog has exactly
    prints, logs one warning and returns normally, with no call of
    [write_value]; a write for a name the catalog has calls [write_value]
    once, with the bundle and the value id of the first parameter of that
    name in the catalog's order. *)
Theorem set_parameter_resolves_by_first_exact_name
    (gateway_id system_id : Z) (parameters : list Param.t) (name value : obj) (w : world) :
  let run := _set_parameter fails loop_is_running gateway_id system_id parameters name value w in
  ((∀ p, p ∈ parameters → PStr (Param.name p) ≠ name) →
     run.1 = Ok tt ∧
     trace run.2 = trace w ++ [Printed "Setting {name} to {value}";
                               Logged WARNING "Parameter %s not found, skipping write"] ∧
     writes (trace run.2) = writes (trace w)) ∧
  (∀ before target after,
     parameters = before ++ target :: after →
     PStr (Param.name target) = name →
     (∀ p, p ∈ before → PStr (Param.name p) ≠ name) →
     writes (trace run.2) =
       writes (trace w) ++
       [WriteValue gateway_id system_id (Param.bundle_id target)
          {| VALUE_ID := Param.value_id target; STATE := value |}]).
Proof.
  intros run. subst run. split.
  - intros Hno. unfold _set_parameter, bind, print, log, emit. simpl.
    rewrite (find_by_name_none _ _ Hno). simpl.
    rewrite <- app_assoc. simpl. repeat split.
    by rewrite writes_app, app_nil_r.
  - intros before target after -> Htarget Hbefore.
    unfold _set_parameter, bind, print, emit. simpl.
    rewrite (find_by_name_first _ _ _ _ Htarget Hbefore).
    unfold is_running, try_except, bind, call, log, emit, ret. simpl.
    destruct (loop_is_running _); simpl;
      destruct (fails _ _); simpl;
      rewrite ?writes_app; simpl; by rewrite ?app_nil_r.
Qed.

End write_path.

Lemma set_parameter_resolves_by_first_exact_name_witness :
  let run name :=
    wolf._set_parameter sample.never_fails sample.not_running 1 2
      [sample.boiler_pressure; sample.boiler_heating; sample.boiler_heating']
      (PStr name) (PStr "21") (sample.bridge sample.new_year None) in
  ((run "Flow").1 = Ok tt ∧ wolf.writes (wolf.trace (run "Flow").2) = []) ∧
  wolf.writes (wolf.trace (run "Heating").2) =
    [wolf.WriteValue 1 2 100 {| wolf.VALUE_ID := 7; wolf.STATE := PStr "21" |}].
Proof.
  intros run. split.
  - destruct (proj1 (set_parameter_resolves_by_first_exact_name
        sample.never_fails sample.not_running 1 2
        [sample.boiler_pressure; sample.boiler_heating; sample.boiler_heating']
        (PStr "Flow") (PStr "21") (sample.bridge sample.new_year None)))
      as (Hret & _ & Hwrites).
    + intros p Hp. repeat (apply elem_of_cons in Hp as [-> | Hp]; [discriminate|]).
      by apply elem_of_nil in Hp.
    + split; [exact Hret | exact Hwrites].
  - apply (proj2 (set_parameter_resolves_by_first_exact_name
        sample.never_fails sample.not_running 1 2
        [sample.boiler_pressure; sample.boiler_heating; sample.boiler_heating']
        (PStr "Heating") (PStr "21") (sample.bridge sample.new_year None))
        [sample.boiler_pressure] sample.boiler_heating [sample.boiler_heating']).
    + reflexivity.
    + reflexivity.
    + intros p Hp. apply elem_of_cons in Hp as [-> | Hp]; [discriminate|].
      by apply elem_of_nil in Hp.
Defined.

(** ** Command payloads (wolf.py) *)

Lemma get_missing (d : items) (k : str) :
  lookup_item k d = None → get (PDict d) k = Ok PNone.
Proof. intros H. simpl. by rewrite H. Qed.

(** C8. The JSON payload with name X and value 1 and the text payload
    [X 1] both parse to the pair of X and 1; a text is split once, at its
    first run of whitespace; the empty payload, and every JSON object
    without the key [value] (so every one without both [name] and [value]),
    is a parse failure, [ValueError]. *)
Theorem parse_set_payload_forms :
  wolf._parse_set_payload (dq "{'name':'X','value':'1'}") = Ok (PStr "X", PStr "1") ∧
  wolf._parse_set_payload "X 1" = Ok (PStr "X", PStr "1") ∧
  wolf._parse_set_payload "X   1 2" = Ok (PStr "X", PStr "1 2") ∧
  wolf._parse_set_payload "" = Raise ValueError ∧
  wolf._parse_set_payload "{}" = Raise ValueError ∧
  (∀ payload d,
     json_loads (strip payload) = Ok (PDict d) →
     lookup_item "value" d = None →
     wolf._parse_set_payload payload = Raise ValueError).
Proof.
  do 5 (split; [vm_compute; reflexivity|]).
  intros payload d Hjson Hvalue. unfold wolf._parse_set_payload.
  case_bool_decide as Hempty.
  - destruct (strip payload) as [cs]. simpl in Hempty. subst cs.
    vm_compute in Hjson. discriminate.
  - rewrite Hjson. unfold rbind. simpl.
    rewrite Hvalue. simpl.
    destruct (truthy _); [by rewrite orb_true_r|].
    destruct (truthy _); by rewrite orb_true_r.
Qed.

Lemma parse_set_payload_forms_witness :
  wolf._parse_set_payload (dq " {'parameter': 'X', 'other': 1} ") = Raise ValueError.
Proof.
  apply (proj2 (proj2 (proj2 (proj2 (proj2 parse_set_payload_forms))))
           (dq " {'parameter': 'X', 'other': 1} ")
           [("parameter", PStr "X"); ("other", PInt 1)]).
  - vm_compute. reflexivity.
  - vm_compute. reflexivity.
Defined.

(** ** MQTT settings (wolf.py) *)

(** C7. The URL [mqtts://h] resolves to host h, port 8883 and TLS, [h:1884]
    to host h, port 1884 and no TLS, and [h] to host h, port 1883 and no
    TLS; whenever a section resolves to settings, a username that is
    [anonymous] or empty gives no username and an empty password gives no
    password. *)
Theorem resolve_mqtt_settings_normalizes :
  wolf._resolve_mqtt_settings (spec.mqtt_section (PStr "mqtts://h") PNone PNone) =
    Ok (Some {| wolf.host := "h"; wolf.port := 8883; wolf.username := None;
                wolf.password := PNone; wolf.use_tls := true |}) ∧
  wolf._resolve_mqtt_settings (spec.mqtt_section (PStr "h:1884") PNone PNone) =
    Ok (Some {| wolf.host := "h"; wolf.port := 1884; wolf.username := None;
                wolf.password := PNone; wolf.use_tls := false |}) ∧
  wolf._resolve_mqtt_settings (spec.mqtt_section (PStr "h") PNone PNone) =
    Ok (Some {| wolf.host := "h"; wolf.port := 1883; wolf.username := None;
                wolf.password := PNone; wolf.use_tls := false |}) ∧
  (∀ d settings,
     wolf._resolve_mqtt_settings (PDict d) = Ok (Some settings) →
     (lookup_item "username" d = Some (PStr "anonymous")
      ∨ lookup_item "username" d = Some (PStr "") →
      wolf.username settings = None) ∧
     (lookup_item "password" d = Some (PStr "") →
      wolf.password settings = PNone)).
Proof.
  do 3 (split; [vm_compute; reflexivity|]).
  intros d settings. unfold wolf._resolve_mqtt_settings, rbind. simpl get.
  destruct (negb (truthy (PDict d))); [discriminate|].
  set (url := default PNone (lookup_item "url" d)).
  destruct (negb (truthy url)); [discriminate|].
  destruct (match url with
            | PStr url => wolf._parse_mqtt_url url
            | _ => Raise AttributeError
            end) as [[[h p] sch]|]; [|discriminate].
  intros [= <-]. simpl. split.
  - intros [-> | ->]; reflexivity.
  - intros ->. reflexivity.
Qed.

Lemma resolve_mqtt_settings_normalizes_witness :
  wolf._resolve_mqtt_settings
    (spec.mqtt_section (PStr "ssl://broker.example:8884") (PStr "anonymous") (PStr "")) =
    Ok (Some {| wolf.host := "broker.example"; wolf.port := 8884;
                wolf.username := None; wolf.password := PNone;
                wolf.use_tls := true |}) ∧
  wolf.username {| wolf.host := "broker.example"; wolf.port := 8884;
                   wolf.username := None; wolf.password := PNone;
                   wolf.use_tls := true |} = None ∧
  wolf.password {| wolf.host := "broker.example"; wolf.port := 8884;
                   wolf.username := None; wolf.password := PNone;
                   wolf.use_tls := true |} = PNone.
Proof.
  assert (Hrun :
    wolf._resolve_mqtt_settings
      (spec.mqtt_section (PStr "ssl://broker.example:8884") (PStr "anonymous") (PStr "")) =
      Ok (Some {| wolf.host := "broker.example"; wolf.port := 8884;
                  wolf.username := None; wolf.password := PNone;
                  wolf.use_tls := true |})) by (vm_compute; reflexivity).
  split; [exact Hrun|].
  destruct (proj2 (proj2 (proj2 resolve_mqtt_settings_normalizes)) _ _ Hrun)
    as [Huser Hpw].
  split.
  - apply Huser. left. vm_compute. reflexivity.
  - apply Hpw. vm_compute. reflexivity.
Defined.

(** ** Status building (wolf.py) *)

Section build_status.
Import wolf spec.
Implicit Types (st : status) (parameters : list Param.t) (values : list Value.t).

Lemma fold_turn_raise parameters values e :
  fold_left (turn parameters) values (Raise e) = Raise e.
Proof. induction values; simpl; auto. Qed.

Lemma build_loop_fold parameters values st w :
  (build_loop parameters values st w).1 = fold_left (turn parameters) values (Ok st).
Proof.
  revert st w. induction values as [|val values IH]; intros st w; simpl; [done|].
  destruct (find_by_value_id _ _) as [par|].
  - unfold bind, lift. destruct (put _ _ _ st) as [st'|e]; simpl.
    + apply IH.
    + by rewrite fold_turn_raise.
  - unfold bind, log, emit. apply IH.
Qed.

Lemma build_status_fold parameters values w :
  (_build_status parameters values w).1 =
  fold_left (turn parameters) values
    (Ok {["time" := Stamp (strftime_dmY_HMS (now w))]}).
Proof. unfold _build_status, bind, datetime_now. apply build_loop_fold. Qed.

Lemma put_raises_TypeError p n x st e : put p n x st = Raise e → e = TypeError.
Proof. unfold put. repeat case_match; congruence. Qed.

Lemma put_time p n x st st' a :
  st !! "time" = Some (Stamp a) → put p n x st = Ok st' →
  p ≠ "time" ∧ st' !! "time" = Some (Stamp a).
Proof.
  intros Htime. unfold put. destruct (decide (p = "time")) as [->|Hp].
  - rewrite Htime. discriminate.
  - repeat case_match; intros [= <-]; by rewrite lookup_insert_ne.
Qed.

(** Once a reading under ["time"] is met, the loop has raised. *)
Lemma fold_turn_under_time parameters values st a :
  st !! "time" = Some (Stamp a) →
  (∃ val, val ∈ values ∧ under_time parameters val) →
  fold_left (turn parameters) values (Ok st) = Raise TypeError.
Proof.
  revert st. induction values as [|val values IH]; intros st Htime (v & Hv & Hunder).
  { by apply elem_of_nil in Hv. }
  simpl. destruct (find_by_value_id parameters (Value.value_id val)) as [par|] eqn:Hfind.
  - destruct (put _ _ _ st) as [st'|e] eqn:Hput.
    + destruct (put_time _ _ _ _ _ _ Htime Hput) as [Hp Htime'].
      apply IH; [done|]. exists v. split; [|done].
      apply elem_of_cons in Hv as [-> | Hv]; [|done].
      destruct Hunder as (par' & Hfind' & Hparent). congruence.
    + rewrite (put_raises_TypeError _ _ _ _ _ Hput). apply fold_turn_raise.
  - apply IH; [done|]. exists v. split; [|done].
    apply elem_of_cons in Hv as [-> | Hv]; [|done].
    destruct Hunder as (par' & Hfind' & _). congruence.
Qed.

Lemma find_by_value_id_unique parameters par :
  NoDup (map Param.value_id parameters) → par ∈ parameters →
  find_by_value_id parameters (Param.value_id par) = Some par.
Proof.
  unfold find_by_value_id.
  induction parameters as [|p parameters IH]; intros Hnodup Hin.
  { by apply elem_of_nil in Hin. }
  simpl in *. apply NoDup_cons in Hnodup as [Hp Hnodup].
  apply elem_of_cons in Hin as [-> | Hin].
  - by rewrite bool_decide_eq_true_2.
  - rewrite bool_decide_eq_false_2; [by apply IH|].
    intros Heq. apply Hp. rewrite Heq. by apply list_elem_of_fmap_2.
Qed.

(** C10. When a supplied reading matches a parameter whose parent is
    ["time"], [_build_status] raises ([TypeError]: the entry under ["time"] is
    the timestamp, a [str]); so it returns only when no matched parameter has
    that parent.  The parameter a reading matches is the first of the catalog
    with its value id, the only one when the value ids of the catalog are
    unique. *)
Theorem build_status_time_is_reserved parameters values (w : world) :
  ((∃ val, val ∈ values ∧ under_time parameters val) →
     (_build_status parameters values w).1 = Raise TypeError) ∧
  (returns (_build_status parameters values w).1 →
     ¬ ∃ val, val ∈ values ∧ under_time parameters val) ∧
  (NoDup (map Param.value_id parameters) →
   (∃ val par, val ∈ values ∧ par ∈ parameters
               ∧ Param.value_id par = Value.value_id val
               ∧ Param.parent par = "time") →
     (_build_status parameters values w).1 = Raise TypeError).
Proof.
  assert (Hraise : (∃ val, val ∈ values ∧ under_time parameters val) →
                   (_build_status parameters values w).1 = Raise TypeError).
  { intros Hex. rewrite build_status_fold.
    eapply fold_turn_under_time; [|done]. apply lookup_singleton_eq. }
  split; [done|]. split.
  - intros [st Hst] Hex. rewrite (Hraise Hex) in Hst. discriminate.
  - intros Hnodup (val & par & Hval & Hpar & Hid & Hparent).
    apply Hraise. exists val. split; [done|]. exists par. split; [|done].
    rewrite <- Hid. by apply find_by_value_id_unique.
Qed.

Lemma put_comm p1 n1 x1 p2 n2 x2 st :
  (p1 = p2 → n1 = n2 → x1 = x2) →
  rbind (put p1 n1 x1 st) (put p2 n2 x2) = rbind (put p2 n2 x2 st) (put p1 n1 x1).
Proof.
  intros Hsame. destruct (decide (p1 = p2)) as [<-|Hp].
  - assert (Hin : ∀ g : gmap str obj,
              <[n2:=x2]> (<[n1:=x1]> g) = <[n1:=x1]> (<[n2:=x2]> g)).
    { intros g. destruct (decide (n1 = n2)) as [<-|Hn].
      - by rewrite (Hsame eq_refl eq_refl).
      - by apply insert_insert_ne. }
    unfold put. destruct (st !! p1) as [[a|g]|] eqn:Hst; simpl; [done| |].
    + rewrite !lookup_insert_eq, !insert_insert_eq. by rewrite Hin.
    + rewrite !lookup_insert_eq, !insert_insert_eq.
      by rewrite <- !insert_empty, Hin.
  - unfold put.
    destruct (st !! p1) as [[a1|g1]|] eqn:H1, (st !! p2) as [[a2|g2]|] eqn:H2;
      simpl; rewrite ?lookup_insert_ne, ?H1, ?H2 by done; try done;
      by rewrite insert_insert_ne.
Qed.

Lemma turn_comm parameters v1 v2 r :
  (is_Some (path_of parameters v1) →
   path_of parameters v1 = path_of parameters v2 →
   Value.value v1 = Value.value v2) →
  turn parameters (turn parameters r v1) v2 = turn parameters (turn parameters r v2) v1.
Proof.
  intros Hagree. destruct r as [st|e]; [|done].
  unfold turn, path_of in *. simpl in *.
  destruct (find_by_value_id parameters (Value.value_id v1)) as [par1|],
           (find_by_value_id parameters (Value.value_id v2)) as [par2|];
    simpl in *.
  - apply put_comm. intros Hp Hn. apply Hagree; [by eexists | congruence].
  - by destruct (put _ _ _ st).
  - by destruct (put _ _ _ st).
  - done.
Qed.

Lemma fold_left_as_foldr {A B} (f : B → A → B) (l : list A) (b : B) :
  fold_left f l b = foldr (λ a b, f b a) b (rev l).
Proof. symmetry. exact (fold_left_rev_right (λ a b, f b a) l b). Qed.

Lemma fold_turn_permutation parameters values1 values2 r :
  values1 ≡ₚ values2 → agree_on_paths parameters values1 →
  fold_left (turn parameters) values1 r = fold_left (turn parameters) values2 r.
Proof.
  intros Hperm Hagree. rewrite !fold_left_as_foldr.
  assert (Hin : ∀ j v, rev values1 !! j = Some v → v ∈ values1).
  { intros j v Hj. rewrite (Permutation_rev values1).
    apply list_elem_of_lookup. eauto. }
  apply (foldr_permutation (=) (λ val r, turn parameters r val) r).
  - intros j1 v1 j2 v2 r' _ H1 H2. symmetry. apply turn_comm. apply Hagree; eauto.
  - by rewrite <- !Permutation_rev.
Qed.

Lemma turn_alike parameters r1 r2 val :
  alike r1 r2 → alike (turn parameters r1 val) (turn parameters r2 val).
Proof.
  destruct r1 as [st1|e1], r2 as [st2|e2]; simpl; try done.
  intros (Heq & [a1 H1] & [a2 H2]).
  destruct (find_by_value_id _ _) as [par|];
    [|simpl; split; [done|split; [by exists a1 | by exists a2]]].
  unfold put. destruct (decide (Param.parent par = "time")) as [->|Hp].
  { by rewrite H1, H2. }
  assert (Hlook : st1 !! Param.parent par = st2 !! Param.parent par).
  { by rewrite <- (lookup_delete_ne st1 "time"), <- (lookup_delete_ne st2 "time"), Heq. }
  rewrite <- Hlook.
  destruct (st1 !! Param.parent par) as [[a|g]|]; simpl; [done| |];
    (split; [by rewrite !(delete_insert_ne _ "time"), Heq|]);
    split; eexists; by rewrite lookup_insert_ne.
Qed.

Lemma fold_turn_alike parameters values r1 r2 :
  alike r1 r2 →
  alike (fold_left (turn parameters) values r1) (fold_left (turn parameters) values r2).
Proof.
  revert r1 r2. induction values as [|val values IH]; intros r1 r2 H; simpl; [done|].
  by apply IH, turn_alike.
Qed.

Lemma alike_without_time r1 r2 : alike r1 r2 → without_time r1 = without_time r2.
Proof.
  destruct r1, r2; simpl; try done.
  - by intros [-> _].
  - by intros ->.
Qed.

(** C5, amended.  For every catalog and every two lists of readings that
    are permutations of each other and in which the readings stored at the
    same key path carry the same value, [_build_status] gives the same
    outcome once the timestamp is left out, whatever the clock shows. *)
Theorem build_status_order_independent parameters values1 values2 (w1 w2 : world) :
  values1 ≡ₚ values2 →
  agree_on_paths parameters values1 →
  without_time (_build_status parameters values1 w1).1 =
  without_time (_build_status parameters values2 w2).1.
Proof.
  intros Hperm Hagree. rewrite !build_status_fold.
  rewrite (fold_turn_permutation _ _ _ _ Hperm Hagree).
  apply alike_without_time, fold_turn_alike. simpl.
  split; [|split; eexists; apply lookup_singleton_eq].
  by rewrite !delete_singleton_eq.
Qed.

End build_status.

(** C5 as stated fails: two parameters may share a parent and a name, and
    then the reading that comes last is the one kept. *)
Lemma build_status_order_dependent :
  let parameters := [sample.boiler_heating; sample.boiler_heating'] in
  let values1 := [sample.reading 7 "x"; sample.reading 8 "y"] in
  let values2 := [sample.reading 8 "y"; sample.reading 7 "x"] in
  let w := sample.bridge sample.new_year None in
  values1 ≡ₚ values2 ∧
  spec.without_time (wolf._build_status parameters values1 w).1 =
    Ok {["Boiler" := wolf.Group {["Heating" := PStr "y"]}]} ∧
  spec.without_time (wolf._build_status parameters values2 w).1 =
    Ok {["Boiler" := wolf.Group {["Heating" := PStr "x"]}]} ∧
  spec.without_time (wolf._build_status parameters values1 w).1 ≠
  spec.without_time (wolf._build_status parameters values2 w).1.
Proof.
  intros parameters values1 values2 w.
  assert (H1 : spec.without_time (wolf._build_status parameters values1 w).1 =
               Ok {["Boiler" := wolf.Group {["Heating" := PStr "y"]}]})
    by (vm_compute; reflexivity).
  assert (H2 : spec.without_time (wolf._build_status parameters values2 w).1 =
               Ok {["Boiler" := wolf.Group {["Heating" := PStr "x"]}]})
    by (vm_compute; reflexivity).
  split; [apply perm_swap|]. split; [exact H1|]. split; [exact H2|].
  rewrite H1, H2. intros [=].
Qed.

Lemma build_status_order_independent_witness :
  let parameters := [sample.boiler_heating; sample.boiler_pressure] in
  let values1 := [sample.reading 7 "42"; sample.reading 9 "1.5"; sample.reading 99 "?"] in
  let values2 := [sample.reading 99 "?"; sample.reading 9 "1.5"; sample.reading 7 "42"] in
  spec.without_time
    (wolf._build_status parameters values1 (sample.bridge sample.new_year None)).1 =
  spec.without_time
    (wolf._build_status parameters values2 (sample.bridge sample.next_day None)).1.
Proof.
  intros parameters values1 values2.
  apply build_status_order_independent.
  - exact (Permutation_rev values1).
  - intros v1 v2 H1 H2 Hsome Hpath.
    repeat (apply elem_of_cons in H1 as [-> | H1]);
      try (by apply elem_of_nil in H1);
      repeat (apply elem_of_cons in H2 as [-> | H2]);
      try (by apply elem_of_nil in H2);
      first [reflexivity | by vm_compute in Hpath | by destruct Hsome as [? [=]]].
Defined.

Lemma build_status_time_is_reserved_witness :
  let w := sample.bridge sample.new_year None in
  let catalog := [sample.boiler_heating; sample.time_zone] in
  (wolf._build_status catalog [sample.reading 10 "CET"] w).1 = Raise TypeError ∧
  (wolf._build_status catalog [sample.reading 7 "42"; sample.reading 10 "CET"] w).1
    = Raise TypeError ∧
  ¬ (∃ val, val ∈ [sample.reading 7 "42"] ∧ spec.under_time catalog val).
Proof.
  intros w catalog.
  pose proof (build_status_time_is_reserved catalog [sample.reading 10 "CET"] w)
    as (Hraises & _ & _).
  pose proof (build_status_time_is_reserved catalog
                [sample.reading 7 "42"; sample.reading 10 "CET"] w)
    as (_ & _ & Hunique).
  pose proof (build_status_time_is_reserved catalog [sample.reading 7 "42"] w)
    as (_ & Hreturns & _).
  split; [|split].
  - apply Hraises. exists (sample.reading 10 "CET"). split.
    + apply elem_of_cons. by left.
    + exists sample.time_zone. split; reflexivity.
  - apply Hunique.
    + repeat constructor; rewrite ?elem_of_cons, ?elem_of_nil; intuition discriminate.
    + exists (sample.reading 10 "CET"), sample.time_zone.
      unfold catalog. repeat split; rewrite ?elem_of_cons; auto.
  - apply Hreturns. eexists. vm_compute. reflexivity.
Defined.

(** ** The token cache and the authenticator (token_auth.py) *)

Section token_cache.
Import token_auth spec.
Variable code_verifier code_challenge state : str.
Variable client : request → result response.
Variable username password : str.

Lemma quiet_ret {A} (a : A) : quiet (ret a).
Proof. by intros w. Qed.
Lemma quiet_raise {A} e : quiet (@raise world A e).
Proof. by intros w. Qed.
Lemma quiet_lift {A} (r : result A) : quiet (lift r).
Proof. by intros w. Qed.
Lemma quiet_print text : quiet (print text).
Proof.
  intros w. simpl. repeat split. unfold requests.
  by rewrite List.filter_app, app_nil_r.
Qed.
Lemma quiet_log lvl text : quiet (log lvl text).
Proof.
  intros w. simpl. repeat split. unfold requests.
  by rewrite List.filter_app, app_nil_r.
Qed.
Lemma quiet_read_text : quiet read_text.
Proof. intros w. unfold read_text. destruct (cache_file w) eqn:E; simpl; auto. Qed.
Lemma quiet_datetime_now : quiet datetime_now.
Proof. by intros w. Qed.

Lemma quiet_bind {A B} (m : M world A) (k : A → M world B) :
  quiet m → (∀ a, quiet (k a)) → quiet (bind m k).
Proof.
  intros Hm Hk w. unfold bind. specialize (Hm w).
  destruct (m w) as [[a|e] w1]; simpl in *; [|done].
  destruct Hm as (? & ? & ? & ?), (Hk a w1) as (? & ? & ? & ?).
  repeat split; congruence.
Qed.

Lemma quiet_try_except {A} (body : M world A) caught handler :
  quiet body → (∀ e, quiet (handler e)) → quiet (try_except body caught handler).
Proof.
  intros Hm Hk w. unfold try_except. specialize (Hm w).
  destruct (body w) as [[a|e] w1]; simpl in *; [done|].
  destruct (caught e); [|done].
  destruct Hm as (? & ? & ? & ?), (Hk e w1) as (? & ? & ? & ?).
  repeat split; congruence.
Qed.

Create HintDb quiet.
#[local] Hint Resolve quiet_ret quiet_raise quiet_lift quiet_print quiet_log
  quiet_read_text quiet_datetime_now quiet_bind quiet_try_except : quiet.

Ltac quiet_step :=
  first [ match goal with |- ∀ _, _ => intro end
        | apply quiet_bind | apply quiet_try_except
        | solve [auto with quiet]
        | case_match ].

Lemma quiet_read_cache : quiet _read_cache.
Proof. unfold _read_cache. repeat quiet_step. Qed.

Lemma quiet_load_cached_tokens : quiet (_load_cached_tokens username).
Proof.
  unfold _load_cached_tokens.
  apply quiet_bind; [apply quiet_read_cache|]. repeat quiet_step.
Qed.

Lemma quiet_is_expired tokens : quiet (is_expired tokens).
Proof. unfold is_expired. repeat quiet_step. Qed.

Lemma extends_quiet_free {A} (m : M world A) :
  (∀ w, trace (m w).2 = trace w) → extends m.
Proof. intros H w. exists []. by rewrite app_nil_r. Qed.

Lemma extends_ret {A} (a : A) : extends (ret a).
Proof. by apply extends_quiet_free. Qed.
Lemma extends_raise {A} e : extends (@raise world A e).
Proof. by apply extends_quiet_free. Qed.
Lemma extends_lift {A} (r : result A) : extends (lift r).
Proof. by apply extends_quiet_free. Qed.
Lemma extends_emit e : extends (emit e).
Proof. intros w. by exists [e]. Qed.
Lemma extends_read_text : extends read_text.
Proof.
  apply extends_quiet_free. intros w. unfold read_text.
  by destruct (cache_file w) eqn:E.
Qed.
Lemma extends_write_text text : extends (write_text text).
Proof.
  apply extends_quiet_free. intros w. unfold write_text.
  by destruct (disk_writable w) eqn:E.
Qed.
Lemma extends_datetime_now : extends datetime_now.
Proof. by apply extends_quiet_free. Qed.

Lemma extends_bind {A B} (m : M world A) (k : A → M world B) :
  extends m → (∀ a, extends (k a)) → extends (bind m k).
Proof.
  intros Hm Hk w. unfold bind. destruct (Hm w) as [more Hmore].
  destruct (m w) as [[a|e] w1]; simpl in *; [|by eauto].
  destruct (Hk a w1) as [more' Hmore']. exists (more ++ more').
  by rewrite Hmore', Hmore, app_assoc.
Qed.

Lemma extends_try_except {A} (body : M world A) caught handler :
  extends body → (∀ e, extends (handler e)) → extends (try_except body caught handler).
Proof.
  intros Hm Hk w. unfold try_except. destruct (Hm w) as [more Hmore].
  destruct (body w) as [[a|e] w1]; simpl in *; [by eauto|].
  destruct (caught e); [|by eauto].
  destruct (Hk e w1) as [more' Hmore']. exists (more ++ more').
  by rewrite Hmore', Hmore, app_assoc.
Qed.

Create HintDb extends.
#[local] Hint Resolve extends_ret extends_raise extends_lift extends_emit
  extends_read_text extends_write_text extends_datetime_now
  extends_bind extends_try_except : extends.
#[local] Hint Unfold print log send Tokens_init : extends.

Ltac extends_step :=
  first [ match goal with |- ∀ _, _ => intro end
        | apply extends_bind | apply extends_try_except
        | solve [auto with extends]
        | case_match ].

Lemma extends_read_cache : extends _read_cache.
Proof. unfold _read_cache, print, log. repeat extends_step. Qed.

Lemma extends_save_cached_tokens tokens : extends (_save_cached_tokens username tokens).
Proof.
  unfold _save_cached_tokens, print, log.
  apply extends_bind; [apply extends_read_cache|]. repeat extends_step.
Qed.

Lemma send_first {A} (r : request) (k : response → M world A) w :
  (∀ a, extends (k a)) →
  ∃ more, trace (bind (send client r) k w).2 = trace w ++ Requested r :: more.
Proof.
  intros Hk. unfold bind, send, bind, emit, lift. simpl.
  destruct (client r) as [a|e]; simpl; [|by exists []].
  match goal with |- context [k a ?w1] => destruct (Hk a w1) as [more Hmore] end.
  exists more. rewrite Hmore. simpl. by rewrite <- app_assoc.
Qed.

(** The login starts with the request for the login page. *)
Lemma login_requests_page w :
  ∃ more,
    trace (login code_verifier code_challenge state client username password w).2 =
    trace w ++ Requested (GetLoginPage state code_challenge) :: more.
Proof.
  unfold login. apply send_first. intros r.
  unfold print, log, send, Tokens_init.
  repeat first [ apply extends_save_cached_tokens | extends_step ].
Qed.

Lemma fresh_login_requests_page w :
  ∃ more,
    trace (fresh_login code_verifier code_challenge state client username password w).2 =
    trace w ++ Requested (GetLoginPage state code_challenge) :: more.
Proof.
  unfold fresh_login, try_except.
  destruct (login_requests_page w) as [more Hmore].
  destruct (login _ _ _ _ _ _ w) as [[tokens|e] w1]; simpl in *; [by eauto|].
  exists (more ++ [Logged ERROR "An error occurred: %s"]).
  rewrite Hmore. by rewrite <- app_assoc.
Qed.

Lemma requests_app t1 t2 : requests (t1 ++ t2) = requests t1 ++ requests t2.
Proof. apply List.filter_app. Qed.

(** C1, amended.  When the cache holds an entry for the user that reads
    back as a token with a naive expiry, [token] returns that token
    unchanged, with no network call, exactly when [now <= expire_at]: at the
    instant [now = expire_at] the cached token is still used.  Once
    [now > expire_at] it logs the expiry and logs in afresh, and the first
    thing the login does is the request for the login page. *)
Theorem token_uses_cache_through_expiry (w : world) (cached : Tokens) (expire : Z) :
  (_load_cached_tokens username w).1 = Ok (Some cached) →
  expire_date cached = Naive expire →
  let run := token code_verifier code_challenge state client username password w in
  (now w ≤ expire →
     run.1 = Ok cached ∧ requests (trace run.2) = requests (trace w)) ∧
  (expire < now w →
     run = fresh_login code_verifier code_challenge state client username password
             (log INFO "Cached token for user %s expired, requesting a new one"
                (_load_cached_tokens username w).2).2
     ∧ ∃ more, requests (trace run.2) =
               requests (trace w) ++ Requested (GetLoginPage state code_challenge) :: more).
Proof.
  intros Hload Hexpire run. subst run. unfold token, bind.
  destruct (quiet_load_cached_tokens w) as (Hnow & _ & _ & Hreq).
  destruct (_load_cached_tokens username w) as [r w1]. simpl in *. subst r.
  unfold is_expired, bind, datetime_now, lift. rewrite Hexpire. simpl.
  split.
  - intros Hle. rewrite (proj2 (Z.ltb_ge expire (now w1))) by lia. simpl.
    split; [done|]. by rewrite requests_app, app_nil_r.
  - intros Hlt. rewrite (proj2 (Z.ltb_lt expire (now w1))) by lia. simpl.
    split; [done|].
    match goal with |- context [fresh_login _ _ _ _ _ _ ?w2] =>
      destruct (fresh_login_requests_page w2) as [more Hmore] end.
    rewrite Hmore. simpl. rewrite !requests_app, Hreq. simpl.
    rewrite app_nil_r. eauto.
Qed.

End token_cache.

(** C1 as stated fails at the instant of expiry: with the clock at the
    expiry stamp of the entry, [token] returns the cached token and makes no
    request, for every client. *)
Lemma token_uses_cache_at_expiry_instant :
  let w := sample.auth sample.new_year
             (Some (dq "{'u': {'access_token': 'T', 'expire_date': '2024-01-01T00:00:00'}}")) in
  let cached := {| token_auth.access_token := PStr "T";
                   token_auth.expire_date := Naive sample.new_year |} in
  token_auth.now w = sample.new_year ∧
  ∀ client,
    (token_auth.token "verifier" "challenge" "state" client "u" "secret" w).1 = Ok cached ∧
    token_auth.requests
      (token_auth.trace
         (token_auth.token "verifier" "challenge" "state" client "u" "secret" w).2) = [].
Proof.
  intros w cached. split; [reflexivity|]. intros client.
  split; vm_compute; reflexivity.
Qed.

Lemma token_uses_cache_through_expiry_witness :
  let file := dq "{'u': {'access_token': 'T', 'expire_date': '2024-01-02T00:00:00'}}" in
  let cached := {| token_auth.access_token := PStr "T";
                   token_auth.expire_date := Naive sample.next_day |} in
  let run t :=
    token_auth.token "verifier" "challenge" "state" sample.offline "u" "secret"
      (sample.auth t (Some file)) in
  ((run sample.new_year).1 = Ok cached
   ∧ token_auth.requests (token_auth.trace (run sample.new_year).2) = [])
  ∧ ∃ more,
      token_auth.requests (token_auth.trace (run (sample.next_day + 1)).2) =
      token_auth.Requested (token_auth.GetLoginPage "state" "challenge") :: more.
Proof.
  intros file cached run. split.
  - apply (proj1 (token_uses_cache_through_expiry
                    "verifier" "challenge" "state" sample.offline "u" "secret"
                    (sample.auth sample.new_year (Some file)) cached sample.next_day
                    ltac:(vm_compute; reflexivity) eq_refl)).
    vm_compute. discriminate.
  - apply (proj2 (token_uses_cache_through_expiry
                    "verifier" "challenge" "state" sample.offline "u" "secret"
                    (sample.auth (sample.next_day + 1) (Some file)) cached sample.next_day
                    ltac:(vm_compute; reflexivity) eq_refl)).
    vm_compute. reflexivity.
Defined.

(** What the cache reads recover from: no file, a text that is no JSON, an
    entry without a field, an entry whose timestamp is no datetime. *)
Lemma load_cached_tokens_recovers :
  let load file := (token_auth._load_cached_tokens "u" (sample.auth sample.new_year file)).1 in
  load None = Ok None ∧
  load (Some "{not json") = Ok None ∧
  load (Some (dq "{'other': {'access_token': 'T', 'expire_date': '2024-01-02T00:00:00'}}"))
    = Ok None ∧
  load (Some (dq "{'u': {'access_token': 'T'}}")) = Ok None ∧
  load (Some (dq "{'u': {'expire_date': '2024-01-02T00:00:00'}}")) = Ok None ∧
  load (Some (dq "{'u': {'access_token': 'T', 'expire_date': 'tomorrow'}}")) = Ok None.
Proof. repeat split; vm_compute; reflexivity. Qed.

(** C6 fails on the code.  A cache file that is well-formed JSON but no
    object, an entry that is no object, and an entry whose [expire_date] is
    no string make [_load_cached_tokens] raise ([AttributeError],
    [TypeError]: neither is caught), and [token] with it, for every client. *)
Theorem load_cached_tokens_raises_on_unexpected_shapes :
  let load file := (token_auth._load_cached_tokens "u" (sample.auth sample.new_year file)).1 in
  let token client file :=
    (token_auth.token "verifier" "challenge" "state" client "u" "secret"
       (sample.auth sample.new_year file)).1 in
  load (Some "[]") = Raise AttributeError ∧
  load (Some (dq "{'u': 'T'}")) = Raise TypeError ∧
  load (Some (dq "{'u': {'access_token': 'T', 'expire_date': 1704153600}}"))
    = Raise TypeError ∧
  ∀ client,
    token client (Some "[]") = Raise AttributeError ∧
    token client (Some (dq "{'u': {'access_token': 'T', 'expire_date': 1704153600}}"))
      = Raise TypeError.
Proof.
  intros load token. do 3 (split; [vm_compute; reflexivity|]).
  intros client. split; vm_compute; reflexivity.
Qed.

(** ** The system-context cache (wolf.py) *)

Lemma fromisoformat_nonempty text d :
  fromisoformat (PStr text) = Ok d → truthy (PStr text) = true.
Proof.
  destruct text as [[|c cs]]; [vm_compute; discriminate|reflexivity].
Qed.

(** *** What [json.dumps] writes reads back as text *)

Lemma forallb_app_true {A} (p : A → bool) (l1 l2 : list A) :
  forallb p l1 = true → forallb p l2 = true → forallb p (l1 ++ l2) = true.
Proof. intros H1 H2. by rewrite forallb_app, H1, H2. Qed.

Lemma string_of_uint_printable (d : Decimal.uint) :
  forallb printable
    (map Ascii.N_of_ascii
       (String.list_ascii_of_string (DecimalString.NilEmpty.string_of_uint d))) = true.
Proof. induction d; cbn; done. Qed.

Lemma decimal_printable (n : Z) : forallb printable (decimal n) = true.
Proof.
  unfold decimal, DecimalString.NilZero.string_of_int,
    DecimalString.NilZero.string_of_uint.
  destruct (Z.to_int n) as [d|d]; [|cbn [String.list_ascii_of_string map forallb]];
    destruct d; try apply string_of_uint_printable; try done;
    cbn [String.list_ascii_of_string map forallb];
    rewrite ?string_of_uint_printable; done.
Qed.

Lemma hex_digit_printable (d : N) : (d < 16)%N → printable (hex_digit d) = true.
Proof.
  intros Hd. unfold hex_digit, printable. destruct (d <? 10)%N eqn:H10.
  - apply N.ltb_lt in H10. apply andb_true_intro. split; apply N.leb_le; lia.
  - apply andb_true_intro. split; apply N.leb_le; lia.
Qed.

Lemma hex4_of_printable (c : N) : forallb printable (hex4_of c) = true.
Proof.
  unfold hex4_of. cbn [forallb].
  rewrite !hex_digit_printable; [done|apply N.mod_lt; lia..].
Qed.

Lemma escape_char_printable (c : N) :
  forallb printable (json_encoder.escape_char c) = true.
Proof.
  unfold json_encoder.escape_char.
  repeat (case_match; [done|]).
  destruct ((32 <=? c)%N && (c <=? 126)%N) eqn:Hc;
    [cbn [forallb]; unfold printable; by rewrite Hc|].
  case_match; do 3 (cbn [app forallb]; rewrite ?forallb_app, ?hex4_of_printable);
    reflexivity.
Qed.

Lemma encode_str_printable (s : str) :
  forallb printable (json_encoder.encode_str s) = true.
Proof.
  unfold json_encoder.encode_str. cbn [app forallb]. rewrite forallb_app.
  cbn [forallb]. rewrite andb_true_r. change (printable 34) with true. cbn [andb].
  induction (chars s) as [|c cs IH]; [done|].
  cbn [map List.concat]. by rewrite forallb_app, escape_char_printable, IH.
Qed.

Lemma join_printable (sep : list N) (parts : list (list N)) :
  forallb printable sep = true →
  Forall (λ p, forallb printable p = true) parts →
  forallb printable (json_encoder.join sep parts) = true.
Proof.
  intros Hsep Hparts. destruct Hparts as [|p ps Hp Hps]; [done|].
  cbn [json_encoder.join]. rewrite forallb_app, Hp. cbn [andb].
  induction Hps as [|q qs Hq Hqs IH]; [done|].
  cbn [map List.concat]. by rewrite !forallb_app, Hsep, Hq, IH.
Qed.

(** [json.dumps] escapes every character outside printable ASCII. *)
Lemma encode_printable : ∀ x : obj, forallb printable (json_encoder.encode x) = true.
Proof.
  fix IH 1. intros [|[|]|n|f|s|l|d]; cbn [json_encoder.encode]; try done.
  - apply decimal_printable.
  - destruct f as [|[|]|m e]; try done. cbn [json_encoder.encode_float].
    by rewrite !forallb_app, !decimal_printable.
  - apply encode_str_printable.
  - rewrite !forallb_app. cbn [forallb chars]. rewrite join_printable; [done..|].
    induction l as [|y l IHl]; constructor; [apply IH | apply IHl].
  - rewrite !forallb_app. cbn [forallb chars]. rewrite join_printable; [done..|].
    induction d as [|[k y] d IHd]; constructor; [|apply IHd].
    cbn [fst snd]. by rewrite !forallb_app, encode_str_printable, IH.
Qed.

Lemma decode_printable (cs : list N) :
  forallb printable cs = true → utf8.decode cs = Some cs.
Proof.
  induction cs as [|c cs IH]; [done|]. cbn [forallb utf8.decode].
  intros [Hc Hcs]%andb_prop. rewrite (IH Hcs).
  apply andb_prop in Hc as [_ Hc%N.leb_le].
  by rewrite (proj2 (N.ltb_lt c 128) ltac:(lia)).
Qed.

Lemma universal_newlines_printable (cs : list N) :
  forallb printable cs = true → universal_newlines cs = cs.
Proof.
  induction cs as [|c cs IH]; [done|]. cbn [forallb universal_newlines].
  intros [Hc Hcs]%andb_prop. rewrite (IH Hcs).
  apply andb_prop in Hc as [Hc%N.leb_le _].
  by rewrite (proj2 (N.eqb_neq c 13) ltac:(lia)).
Qed.

(** The file [write_text] leaves after [json.dumps] reads back as the text
    written. *)
Lemma read_as_text_json_dumps (x : obj) :
  read_as_text (encode_ascii (json_dumps x)) = Ok (json_dumps x).
Proof.
  unfold read_as_text, decode_utf8, encode_ascii, json_dumps. cbn [chars].
  rewrite (decode_printable _ (encode_printable x)). cbn [rbind chars].
  by rewrite (universal_newlines_printable _ (encode_printable x)).
Qed.

(** *** Hits and misses *)

(** [_load_cached_system_context] reads the world and leaves it as it is:
    its outcome as a function of the file and the clock. *)
Lemma load_cached_system_context_run (w : wolf.world) :
  wolf._load_cached_system_context w =
  (match wolf.cache_file w with
   | None => Ok None
   | Some b =>
       match rbind (read_as_text b) json_loads with
       | Raise e =>
           if bool_decide (e = FileNotFoundError) || bool_decide (e = JSONDecodeError)
           then Ok None else Raise e
       | Ok cache =>
           rbind (get cache "expires_at") (λ expires_at,
           if negb (truthy expires_at) then Ok None
           else
             match fromisoformat expires_at with
             | Raise e => if is_ValueError e then Ok None else Raise e
             | Ok expires_at_dt =>
                 rbind (datetime_ge (Naive (wolf.now w)) expires_at_dt) (λ late,
                 Ok (if late : bool then None else Some cache))
             end)
       end
   end, w).
Proof.
  unfold wolf._load_cached_system_context, bind, wolf.path_exists, try_except,
    wolf.read_text, wolf.datetime_now, lift, ret, rbind.
  destruct (wolf.cache_file w) as [b|] eqn:Hfile; cbv beta iota; [|done].
  cbn [negb]. cbv beta iota. rewrite Hfile.
  destruct (read_as_text b) as [raw|e]; cbv beta iota;
    [|by destruct (bool_decide _ || bool_decide _)].
  destruct (json_loads raw) as [cache|e]; cbv beta iota;
    [|by destruct (bool_decide _ || bool_decide _)].
  destruct (get cache "expires_at") as [expires_at|e]; cbv beta iota; [|done].
  destruct (negb (truthy expires_at)); cbv beta iota; [done|].
  destruct (fromisoformat expires_at) as [dt|e]; cbv beta iota;
    [|by destruct (is_ValueError e)].
  by destruct (datetime_ge (Naive (wolf.now w)) dt) as [[|]|e].
Qed.

(** A file that reads as an object with a readable, naive expiry stamp is a
    hit before the stamp and a miss from the stamp on. *)
Lemma load_cached_system_context_stamped (w : wolf.world) b raw d text expires :
  wolf.cache_file w = Some b →
  read_as_text b = Ok raw →
  json_loads raw = Ok (PDict d) →
  lookup_item "expires_at" d = Some (PStr text) →
  fromisoformat (PStr text) = Ok (Naive expires) →
  wolf._load_cached_system_context w =
    (Ok (if wolf.now w <? expires then Some (PDict d) else None), w).
Proof.
  intros Hfile Hread Hjson Hlook Hiso. rewrite load_cached_system_context_run.
  rewrite Hfile, Hread. cbn [rbind]. rewrite Hjson. cbn [get rbind].
  rewrite Hlook. change (default PNone (Some (PStr text))) with (PStr text).
  rewrite (fromisoformat_nonempty _ _ Hiso), Hiso. cbn.
  by destruct (wolf.now w <? expires).
Qed.

(** What holds of the expiry: a cache file written at time [t] is a hit at
    every time before [t + 24h] and a miss from [t + 24h] on, provided
    [json.loads] reads back the data [json.dumps] wrote and [fromisoformat]
    the stamp [isoformat] wrote; and [load] is a miss when the file is
    missing, when its text is no JSON, when it is an object without
    [expires_at], and when [expires_at] is a text that is no datetime. *)
Lemma system_context_cache_expires_after_a_day
    (system_list : list wolf.Device.t) (parameters : list wolf.Param.t) (w : wolf.world) :
  let expires := wolf.now w + one_day in
  let data := wolf.cache_data system_list parameters expires in
  let written := wolf._write_system_context_cache system_list parameters w in
  (written.1 = Ok tt →
   json_loads (json_dumps data) = Ok data →
   fromisoformat (PStr (isoformat (Naive expires))) = Ok (Naive expires) →
   ∀ later, wolf.cache_file later = wolf.cache_file written.2 →
     (wolf.now later < expires →
        wolf._load_cached_system_context later = (Ok (Some data), later)) ∧
     (expires ≤ wolf.now later →
        wolf._load_cached_system_context later = (Ok None, later))) ∧
  (wolf.cache_file w = None →
     wolf._load_cached_system_context w = (Ok None, w)) ∧
  (∀ b raw, wolf.cache_file w = Some b → read_as_text b = Ok raw →
     json_loads raw = Raise JSONDecodeError →
     wolf._load_cached_system_context w = (Ok None, w)) ∧
  (∀ b raw d, wolf.cache_file w = Some b → read_as_text b = Ok raw →
     json_loads raw = Ok (PDict d) →
     lookup_item "expires_at" d = None →
     wolf._load_cached_system_context w = (Ok None, w)) ∧
  (∀ b raw d text, wolf.cache_file w = Some b → read_as_text b = Ok raw →
     json_loads raw = Ok (PDict d) →
     lookup_item "expires_at" d = Some (PStr text) →
     fromisoformat (PStr text) = Raise ValueError →
     wolf._load_cached_system_context w = (Ok None, w)).
Proof.
  intros expires data written. split; [|split; [|split; [|split]]].
  - intros Hwritten Hjson Hiso later Hfile.
    assert (Hcache : wolf.cache_file written.2 = Some (encode_ascii (json_dumps data))).
    { subst written. revert Hwritten.
      unfold wolf._write_system_context_cache, bind, wolf.datetime_now, lift.
      unfold datetime_add. fold expires.
      by destruct ((0 <=? expires) && (expires <? calendar.max_us)). }
    rewrite Hcache in Hfile.
    pose proof (load_cached_system_context_stamped later _ _ _ _ _ Hfile
                  (read_as_text_json_dumps data) Hjson eq_refl Hiso) as Hload.
    fold data in Hload. rewrite Hload. split; intros Hnow.
    + by rewrite (proj2 (Z.ltb_lt _ _) Hnow).
    + by rewrite (proj2 (Z.ltb_ge _ _) Hnow).
  - intros Hfile. rewrite load_cached_system_context_run. by rewrite Hfile.
  - intros b raw Hfile Hread Hjson. rewrite load_cached_system_context_run.
    rewrite Hfile, Hread. cbn [rbind]. by rewrite Hjson.
  - intros b raw d Hfile Hread Hjson Hlook. rewrite load_cached_system_context_run.
    rewrite Hfile, Hread. cbn [rbind]. rewrite Hjson. cbn [get rbind].
    by rewrite Hlook.
  - intros b raw d text Hfile Hread Hjson Hlook Hiso.
    rewrite load_cached_system_context_run.
    rewrite Hfile, Hread. cbn [rbind]. rewrite Hjson. cbn [get rbind].
    rewrite Hlook. change (default PNone (Some (PStr text))) with (PStr text).
    destruct (negb (truthy (PStr text))); [done|]. by rewrite Hiso.
Qed.

(** The expiry on a catalog of two parameters, written on new year's day. *)
Lemma system_context_cache_expires_after_a_day_example :
  let home := {| wolf.Device.id := 11; wolf.Device.gateway := 22;
                 wolf.Device.name := "Home" |} in
  let data :=
    wolf.cache_data [home] [sample.boiler_heating; sample.time_zone] sample.next_day in
  let written :=
    (wolf._write_system_context_cache [home] [sample.boiler_heating; sample.time_zone]
       (sample.bridge sample.new_year None)).2 in
  let load t :=
    (wolf._load_cached_system_context
       (sample.bridge_raw t (wolf.cache_file written))).1 in
  load (sample.next_day - 1) = Ok (Some data) ∧ load sample.next_day = Ok None ∧
  (wolf._load_cached_system_context (sample.bridge sample.new_year None)).1 = Ok None ∧
  (wolf._load_cached_system_context
     (sample.bridge sample.new_year (Some "{not json"))).1 = Ok None ∧
  (wolf._load_cached_system_context
     (sample.bridge sample.new_year (Some (dq "{'systems': []}")))).1 = Ok None ∧
  (wolf._load_cached_system_context
     (sample.bridge sample.new_year (Some (dq "{'expires_at': 'tomorrow'}")))).1 = Ok None.
Proof. repeat split; vm_compute; reflexivity. Qed.

(** C4 fails on the code.  [_load_cached_system_context] is a miss for a
    missing file, a text that is no JSON, an object without [expires_at] and
    a stamp that is no datetime, but it raises on the other files the claim
    counts as misses: a file that is JSON but no object has no [expires_at],
    and [cache.get] raises [AttributeError]; an [expires_at] that is no text
    makes [fromisoformat] raise [TypeError], where only [ValueError] is
    caught; and a file that is not UTF-8 makes [read_text] raise
    [UnicodeDecodeError], which is no [JSONDecodeError]. *)
Theorem load_cached_system_context_raises_on_unexpected_shapes :
  let load file :=
    (wolf._load_cached_system_context (sample.bridge sample.new_year (Some file))).1 in
  load "[]" = Raise AttributeError ∧
  load "5" = Raise AttributeError ∧
  load "null" = Raise AttributeError ∧
  load (dq "{'expires_at': 5, 'systems': [], 'parameters': []}") = Raise TypeError ∧
  (wolf._load_cached_system_context
     (sample.bridge_raw sample.new_year (Some [255%N]))).1 = Raise UnicodeDecodeError.
Proof. repeat split; vm_compute; reflexivity. Qed.

(** ** The command handler (wolf.py) *)

(** C2 fails on the code.  The payload [5] is JSON, but no object:
    [_parse_set_payload] raises [AttributeError], which the handler does not
    catch, whatever the catalog and the collaborators. *)
Theorem on_message_raises_on_json_scalar
    (fails : list wolf.event → wolf.event → option exn)
    (loop_is_running : list wolf.event → bool)
    (gateway_id system_id : Z) (parameters : list wolf.Param.t) (w : wolf.world) :
  wolf._parse_set_payload "5" = Raise AttributeError ∧
  (wolf._on_message fails loop_is_running gateway_id system_id parameters
     (encode_ascii "5") w).1 = Raise AttributeError.
Proof. split; reflexivity. Qed.

(** What the handler drops: payloads that are neither JSON nor two words,
    and objects without a name or a value. *)
Lemma on_message_drops_malformed
    (fails : list wolf.event → wolf.event → option exn)
    (loop_is_running : list wolf.event → bool)
    (gateway_id system_id : Z) (parameters : list wolf.Param.t) (w : wolf.world) :
  let handle payload :=
    wolf._on_message fails loop_is_running gateway_id system_id parameters
      (encode_ascii payload) w in
  let dropped :=
    (Ok tt, (wolf.log WARNING "Ignoring MQTT wolf/set payload: %s (%s)" w).2) in
  handle "" = dropped ∧ handle "word" = dropped ∧ handle "{}" = dropped ∧
  handle (dq "{'name': 'X'}") = dropped ∧ handle "{broken" = dropped.
Proof. repeat split. Qed.

(** ** The MQTT connection (wolf.py) *)

Lemma mqtt_calls_app t1 t2 :
  wolf.mqtt_calls (t1 ++ t2) = wolf.mqtt_calls t1 ++ wolf.mqtt_calls t2.
Proof. apply List.filter_app. Qed.

(** What one call of [_ensure_mqtt_connected] does to the world. *)
Lemma ensure_mqtt_connected_run
    (fails : list wolf.event → wolf.event → option exn) (w : wolf.world) :
  let c := wolf.client w in
  wolf._ensure_mqtt_connected fails w =
  if wolf._wolf_connected c then (Ok tt, w)
  else
    match wolf._wolf_mqtt_settings c with
    | None => (Raise RuntimeError, w)
    | Some settings =>
        let connect := wolf.Connect (wolf.host settings) (wolf.port settings) in
        match fails (wolf.trace w) connect with
        | Some e => (Raise e, (wolf.emit connect w).2)
        | None =>
            (Ok tt,
             {| wolf.now := wolf.now w; wolf.cache_file := wolf.cache_file w;
                wolf.client :=
                  {| wolf._wolf_mqtt_settings := Some settings;
                     wolf._wolf_connected := true;
                     wolf._wolf_persistent := wolf._wolf_persistent c |};
                wolf.trace := wolf.trace w ++ [connect] |})
        end
    end.
Proof.
  unfold wolf._ensure_mqtt_connected, bind, wolf.get_client, wolf.set_client,
    wolf.call, raise, ret.
  cbn. destruct (wolf._wolf_connected (wolf.client w)); [done|].
  destruct (wolf._wolf_mqtt_settings (wolf.client w)) as [settings|] eqn:Hsettings;
    [|done].
  destruct (fails (wolf.trace w) _); [done|]. cbn. by rewrite Hsettings.
Qed.

(** What [_publish_status] does on a client that is marked connected. *)
Lemma publish_status_connected
    (fails : list wolf.event → wolf.event → option exn) (st : wolf.status)
    (w : wolf.world) :
  wolf._wolf_connected (wolf.client w) = true →
  let publish := wolf.Publish "wolf/status" st true in
  let tr :=
    wolf.trace w ++ publish ::
    match fails (wolf.trace w) publish with
    | Some _ => [wolf.Logged ERROR "Failed to publish Wolf status via MQTT"]
    | None => []
    end in
  let published :=
    {| wolf.now := wolf.now w; wolf.cache_file := wolf.cache_file w;
       wolf.client := wolf.client w; wolf.trace := tr |} in
  wolf._publish_status true fails st w =
  if wolf._wolf_persistent (wolf.client w) then (Ok tt, published)
  else
    (match fails tr wolf.Disconnect with Some e => Raise e | None => Ok tt end,
     (wolf.emit wolf.Disconnect published).2).
Proof.
  intros Hconnected. unfold wolf._publish_status. cbn [negb].
  unfold bind. rewrite ensure_mqtt_connected_run. cbn zeta. rewrite Hconnected.
  unfold try_finally, try_except, any_exception, wolf.call, bind, wolf.get_client,
    wolf.log, wolf.emit, ret.
  cbn. destruct (fails (wolf.trace w) _); cbn; rewrite <- ?app_assoc; cbn;
    destruct (wolf._wolf_persistent (wolf.client w)); cbn; [done| |done|];
    destruct (fails _ wolf.Disconnect); cbn; by rewrite <- ?app_assoc.
Qed.

(** Once the connection is ensured, [_publish_status] goes on as on a client
    that was marked connected from the start. *)
Lemma publish_status_after_ensure
    (fails : list wolf.event → wolf.event → option exn) (st : wolf.status)
    (w w1 : wolf.world) :
  wolf._ensure_mqtt_connected fails w = (Ok tt, w1) →
  wolf._publish_status true fails st w = wolf._publish_status true fails st w1
  ∧ wolf._wolf_connected (wolf.client w1) = true
  ∧ wolf._wolf_persistent (wolf.client w1) = wolf._wolf_persistent (wolf.client w).
Proof.
  intros Hensure.
  assert (Hclient : wolf._wolf_connected (wolf.client w1) = true
                    ∧ wolf._wolf_persistent (wolf.client w1)
                      = wolf._wolf_persistent (wolf.client w)).
  { revert Hensure. rewrite ensure_mqtt_connected_run. cbn zeta.
    destruct (wolf._wolf_connected (wolf.client w)) eqn:Hconnected;
      [by intros [= <-]|].
    destruct (wolf._wolf_mqtt_settings (wolf.client w)); [|done].
    destruct (fails _ _); [done|]. by intros [= <-]. }
  destruct Hclient as [Hconnected Hpersistent]. split; [|done].
  unfold wolf._publish_status. cbn [negb]. unfold bind at 1 3.
  rewrite Hensure, (ensure_mqtt_connected_run fails w1). cbn zeta.
  by rewrite Hconnected.
Qed.

(** C3, amended.  [_ensure_mqtt_connected] does nothing on a client that is
    marked connected, and on one that is not it connects with the host and
    the port of the settings attached to the client, and marks it connected
    when [connect] returns.  On a client that is not persistent
    [_publish_status] ends with [disconnect] whether or not [publish]
    raised, and leaves the client marked connected: a later
    [_publish_status] on that client makes no new [connect]. *)
Theorem publish_status_disconnects_and_stays_marked
    (fails : list wolf.event → wolf.event → option exn) (st : wolf.status)
    (w : wolf.world) :
  let connected := wolf._ensure_mqtt_connected fails w in
  let published := wolf._publish_status true fails st w in
  (wolf._wolf_connected (wolf.client w) = true → connected = (Ok tt, w)) ∧
  (wolf._wolf_connected (wolf.client w) = false →
     ∀ settings, wolf._wolf_mqtt_settings (wolf.client w) = Some settings →
       wolf.trace connected.2 =
         wolf.trace w ++ [wolf.Connect (wolf.host settings) (wolf.port settings)]
       ∧ (returns connected.1 →
            wolf._wolf_connected (wolf.client connected.2) = true)) ∧
  (wolf._wolf_persistent (wolf.client w) = false → returns connected.1 →
     (∃ before, wolf.trace published.2 = before ++ [wolf.Disconnect])
     ∧ wolf._wolf_connected (wolf.client published.2) = true
     ∧ ∀ fails' st',
         ∃ more,
           wolf.trace (wolf._publish_status true fails' st' published.2).2
           = wolf.trace published.2 ++ wolf.Publish "wolf/status" st' true :: more
           ∧ List.filter wolf.is_connect more = []).
Proof.
  intros connected published. subst connected published. split; [|split].
  - intros Hconnected. rewrite ensure_mqtt_connected_run. cbn zeta.
    by rewrite Hconnected.
  - intros Hconnected settings Hsettings. rewrite ensure_mqtt_connected_run.
    cbn zeta. rewrite Hconnected, Hsettings.
    destruct (fails _ _); cbn; (split; [done|]); [by intros [? [=]]|done].
  - intros Hpersistent [[] Hensure].
    destruct (wolf._ensure_mqtt_connected fails w) as [r w1] eqn:Hrun.
    cbn [fst] in Hensure. subst r.
    destruct (publish_status_after_ensure fails st w w1 Hrun)
      as (-> & Hconnected & Hpersistent1).
    rewrite Hpersistent in Hpersistent1.
    rewrite (publish_status_connected fails st w1 Hconnected), Hpersistent1.
    cbn [snd]. split; [by eexists|]. split; [done|]. intros fails' st'.
    rewrite publish_status_connected by done. cbn [wolf.client wolf.emit snd].
    rewrite Hpersistent1. cbn [snd wolf.emit wolf.trace].
    eexists. split; [by rewrite <- app_assoc|]. by destruct (fails' _ _).
Qed.

Lemma publish_status_disconnects_and_stays_marked_witness :
  let w := (wolf._configure_mqtt_client true sample.never_fails sample.broker
              (sample.bridge sample.new_year None)).2 in
  let published := wolf._publish_status true sample.never_fails ∅ w in
  wolf.trace (wolf._ensure_mqtt_connected sample.never_fails w).2 =
    [wolf.Connect "broker.example" 1883] ∧
  (∃ before, wolf.trace published.2 = before ++ [wolf.Disconnect]) ∧
  wolf._wolf_connected (wolf.client published.2) = true.
Proof.
  intros w published.
  pose proof (publish_status_disconnects_and_stays_marked sample.never_fails ∅ w)
    as (_ & Hconnect & Hpublish).
  split.
  - apply (Hconnect eq_refl sample.broker eq_refl).
  - destruct (Hpublish eq_refl ltac:(by eexists)) as (Hlast & Hmarked & _).
    split; [exact Hlast | exact Hmarked].
Defined.

(** C3 as stated fails: a client fresh from [_configure_mqtt_client] that
    publishes twice connects once.  The second [_publish_status] finds the
    client marked connected and publishes without a new [connect]. *)
Lemma second_publish_does_not_reconnect :
  let configured :=
    (wolf._configure_mqtt_client true sample.never_fails sample.broker
       (sample.bridge sample.new_year None)).2 in
  let first := wolf._publish_status true sample.never_fails ∅ configured in
  let second := wolf._publish_status true sample.never_fails ∅ first.2 in
  first.1 = Ok tt ∧ second.1 = Ok tt ∧
  wolf._wolf_persistent (wolf.client configured) = false ∧
  wolf.trace second.2 =
    [wolf.Connect "broker.example" 1883;
     wolf.Publish "wolf/status" ∅ true; wolf.Disconnect;
     wolf.Publish "wolf/status" ∅ true; wolf.Disconnect].
Proof. repeat split. Qed.


(** ** Reading the token cache (token_auth.py) *)

Section token_cache_reads.
Import token_auth spec.
Variable username : str.

Lemma bind_run {W A B} (m : M W A) (k : A → M W B) w a w' :
  m w = (Ok a, w') → bind m k w = k a w'.
Proof. unfold bind. by intros ->. Qed.

Lemma read_cache_result (w : world) :
  ∃ more, _read_cache w =
          (Ok (cache_of (cache_file w)),
           {| now := now w; cache_file := cache_file w;
              disk_writable := disk_writable w; trace := trace w ++ more |})
          ∧ requests more = [].
Proof.
  unfold _read_cache, try_except, bind, read_text, print, log, emit, lift, ret,
    cache_of, json_loads.
  destruct w as [t file writable tr]. simpl. destruct file as [raw|]; simpl.
  - destruct (loads_total raw) as [[v ->] | ->]; simpl.
    + by eexists.
    + eexists. split; [by rewrite <- app_assoc|done].
  - exists []. by rewrite app_nil_r.
Qed.

(** On a cache file that holds text [_read_cache] returns the object the
    text denotes, and the empty dict when the file is missing or its text is
    no JSON; it leaves the file and the clock as they are and makes no
    request. *)
Lemma read_cache_reads_text (w : world) :
  (_read_cache w).1 = Ok (cache_of (cache_file w)) ∧
  (cache_file w = None → (_read_cache w).1 = Ok (PDict [])) ∧
  (∀ raw, cache_file w = Some raw → json_loads raw = Raise JSONDecodeError →
     (_read_cache w).1 = Ok (PDict [])) ∧
  cache_file (_read_cache w).2 = cache_file w ∧
  now (_read_cache w).2 = now w ∧
  requests (trace (_read_cache w).2) = requests (trace w).
Proof.
  destruct (read_cache_result w) as (more & -> & Hmore). simpl.
  split; [done|]. split; [by intros ->|]. split.
  - intros raw -> Hjson. unfold cache_of. by rewrite Hjson.
  - repeat split. unfold requests in *. by rewrite List.filter_app, Hmore, app_nil_r.
Qed.

Lemma from_cache_entry_typed entry :
  entry_typed entry = true →
  ∀ e, from_cache_entry entry = Raise e → e = KeyError ∨ is_ValueError e = true.
Proof.
  unfold entry_typed, from_cache_entry, rbind, getitem.
  destruct entry as [| | | | |l|d]; try discriminate.
  destruct (lookup_item "expire_date" d) as [[| | | |text| |]|]; try discriminate;
    intros _ e.
  - unfold fromisoformat. destruct (calendar.parse _).
    + destruct (lookup_item "access_token" d); intros [= <-]. by left.
    + intros [= <-]. by right.
  - intros [= <-]. by left.
Qed.

Lemma from_cache_entry_untyped entry :
  truthy entry = true → entry_typed entry = false →
  from_cache_entry entry = Raise TypeError.
Proof.
  unfold entry_typed, from_cache_entry, rbind, getitem.
  destruct entry as [| | | | |l|d]; try done.
  by destruct (lookup_item "expire_date" d) as [[| | | |text| |]|].
Qed.

(** On a cache file that holds text [_load_cached_tokens] returns, a token
    or none, exactly for the caches in which the entry of the user is absent,
    falsy or an object whose [expire_date], if present, is a text; for every
    other cache it raises [AttributeError] (the cache is no object) or
    [TypeError]. *)
Lemma load_cached_tokens_returns_iff_readable (w : world) :
  let outcome := (_load_cached_tokens username w).1 in
  (readable_for username (cache_of (cache_file w)) = true → returns outcome) ∧
  (readable_for username (cache_of (cache_file w)) = false →
     outcome = Raise AttributeError ∨ outcome = Raise TypeError).
Proof.
  intros outcome. subst outcome. unfold _load_cached_tokens.
  destruct (read_cache_result w) as (more & Hread & _).
  rewrite !(bind_run _ _ _ _ _ Hread). clear Hread.
  unfold readable_for. destruct (cache_of (cache_file w)) as [| | | | |l|d];
    try (split; [discriminate | intros _; left; reflexivity]).
  unfold bind, lift. cbn [get].
  set (entry := default PNone (lookup_item username d)).
  destruct (truthy entry) eqn:Htruthy; cbn [negb orb];
    [|split; [by eexists|discriminate]].
  unfold try_except, bind, print, emit, lift, log, ret. cbn [fst snd].
  split; intros Htyped.
  - pose proof (from_cache_entry_typed entry Htyped) as Hraise.
    destruct (from_cache_entry entry) as [tokens|e]; simpl; [by eexists|].
    destruct (Hraise e eq_refl) as [-> | Hvalue];
      [|rewrite Hvalue, orb_true_r]; simpl; by eexists.
  - right. by rewrite (from_cache_entry_untyped entry Htruthy Htyped).
Qed.

End token_cache_reads.

(** ** The login and its failures (token_auth.py) *)

Ltac quiet_go :=
  repeat first
    [ match goal with |- ∀ _, _ => intro end
    | apply quiet_bind | apply quiet_try_except
    | apply quiet_ret | apply quiet_raise | apply quiet_lift
    | apply quiet_print | apply quiet_log
    | apply quiet_read_text | apply quiet_datetime_now
    | case_match ].

Section login.
Import token_auth spec.
Variable code_verifier code_challenge state : str.
Variable client : request → result response.
Variable username password : str.

Lemma silent_quiet {A} (m : M world A) : quiet m → silent m.
Proof. intros H w. apply H. Qed.

Lemma silent_bind {A B} (m : M world A) (k : A → M world B) :
  silent m → (∀ a, silent (k a)) → silent (bind m k).
Proof.
  intros Hm Hk w. unfold bind. specialize (Hm w).
  destruct (m w) as [[a|e] w1]; simpl in *; [|done]. by rewrite Hk.
Qed.

Lemma silent_try_except {A} (body : M world A) caught handler :
  silent body → (∀ e, silent (handler e)) → silent (try_except body caught handler).
Proof.
  intros Hm Hk w. unfold try_except. specialize (Hm w).
  destruct (body w) as [[a|e] w1]; simpl in *; [done|].
  destruct (caught e); [|done]. by rewrite Hk.
Qed.

Lemma silent_write_text text : silent (write_text text).
Proof. intros w. unfold write_text. by destruct (disk_writable w). Qed.

Lemma silent_save_cached_tokens tokens : silent (_save_cached_tokens username tokens).
Proof.
  unfold _save_cached_tokens.
  apply silent_bind; [apply silent_quiet, quiet_read_cache|]. intros cache.
  apply silent_bind; [apply silent_quiet, quiet_lift|]. intros cache'.
  apply silent_try_except.
  - apply silent_bind; [apply silent_quiet, quiet_print|]. intros _.
    apply silent_write_text.
  - intros e. apply silent_quiet, quiet_log.
Qed.

Lemma silent_Tokens_init access expires_in : silent (Tokens_init access expires_in).
Proof. apply silent_quiet. unfold Tokens_init. quiet_go. Qed.

Lemma requests_cons_log lvl text t :
  requests (Logged lvl text :: t) = requests t.
Proof. done. Qed.

(** What follows the answer to the code exchange makes no request. *)
Lemma silent_after_exchange (r : response) :
  silent (token_response <- lift (json_body r) ;;
          log DEBUG "Token response: %s" ;;
          err <- lift (has_error token_response) ;;
          if err : bool then raise InvalidAuth
          else
            log INFO "Successfully authenticated" ;;
            access <- lift (get token_response "access_token") ;;
            expires_in <- lift (get token_response "expires_in") ;;
            tokens <- Tokens_init access expires_in ;;
            log INFO "Caching token that expires at %s" ;;
            _save_cached_tokens username tokens ;;
            ret tokens)%py.
Proof.
  repeat first
    [ match goal with |- ∀ _, _ => intro end
    | apply silent_save_cached_tokens
    | apply silent_Tokens_init
    | apply silent_bind
    | solve [apply silent_quiet; quiet_go]
    | case_match ].
Qed.

Lemma bind_send {A} (r : request) (k : response → M world A) w :
  bind (send client r) k w =
  match client r with
  | Ok a => k a (emit (Requested r) w).2
  | Raise e => (Raise e, (emit (Requested r) w).2)
  end.
Proof. unfold bind, send, bind, emit, lift. simpl. by destruct (client r). Qed.

Lemma bind_log {A} lvl text (k : unit → M world A) w :
  bind (log lvl text) k w = k tt (emit (Logged lvl text) w).2.
Proof. done. Qed.

Lemma bind_lift {A B} (x : result A) (k : A → M world B) w :
  bind (lift x) k w = match x with Ok a => k a w | Raise e => (Raise e, w) end.
Proof. unfold bind, lift. by destruct x. Qed.

Lemma requests_emit e w :
  requests (trace (emit e w).2) =
  requests (trace w) ++ (if is_request e then [e] else []).
Proof. simpl. by rewrite requests_app. Qed.

(** X1. The requests of a login are those of the protocol, in its order:
    the login page; the credentials, sent only with the first form value
    scraped from that page; the code exchange, sent only with the code of the
    redirect.  A login whose page has no form value sends no credentials. *)
Theorem login_follows_protocol (w : world) :
  requests
    (trace (login code_verifier code_challenge state client username password w).2) =
  requests (trace w) ++
  login_requests code_verifier code_challenge state client username password.
Proof.
  assert (Hclose : ∀ (w' : world) (l : list event),
            requests (trace w') = requests (trace w) ++ l →
            ∀ e, requests (trace (emit (Logged DEBUG e) w').2)
                 = requests (trace w) ++ l).
  { intros w' l H e. by rewrite requests_emit, app_nil_r. }
  unfold login, login_requests, rbind. rewrite bind_send.
  pose proof (requests_emit (Requested (GetLoginPage state code_challenge)) w) as H0.
  cbn [is_request] in H0.
  destruct (client (GetLoginPage state code_challenge)) as [r1|e1]; [|exact H0].
  rewrite bind_log, bind_lift. pose proof (Hclose _ _ H0) as H1.
  destruct (form_input_values r1) as [[|token rest]|e];
    [apply H1 | | apply H1].
  rewrite bind_log, bind_send.
  match goal with |- context [emit (Requested ?r) ?w2] =>
    pose proof (requests_emit (Requested r) w2) as H2 end.
  rewrite (Hclose _ _ (H1 _) _) in H2.
  cbn [is_request] in H2. rewrite <- app_assoc in H2.
  destruct (client (PostLogin username password token state code_challenge))
    as [r2|e2]; [|exact H2].
  rewrite bind_log, bind_lift. pose proof (Hclose _ _ H2) as H3.
  destruct (url_code r2) as [code|]; [|apply H3].
  rewrite bind_send.
  match goal with |- context [emit (Requested ?r) ?w2] =>
    pose proof (requests_emit (Requested r) w2) as H4 end.
  rewrite H3 in H4. cbn [is_request] in H4. rewrite <- app_assoc in H4.
  destruct (client (PostToken code code_verifier)) as [r3|e3]; [|exact H4].
  rewrite (silent_after_exchange r3). exact H4.
Qed.

(** *** Saving *)

Lemma lookup_set_item_eq k v (d : items) : lookup_item k (set_item k v d) = Some v.
Proof.
  induction d as [|[k' v'] d IH]; simpl.
  - by rewrite decide_True.
  - destruct (decide (k' = k)) as [->|Hk]; simpl.
    + by rewrite decide_True.
    + by rewrite decide_False.
Qed.

Lemma lookup_set_item_ne k k' v (d : items) :
  k ≠ k' → lookup_item k' (set_item k v d) = lookup_item k' d.
Proof.
  intros Hne. induction d as [|[k0 v0] d IH]; simpl.
  - by rewrite decide_False.
  - destruct (decide (k0 = k)) as [->|Hk]; simpl.
    + by rewrite !decide_False.
    + destruct (decide (k0 = k')); [done|apply IH].
Qed.

Lemma save_cached_tokens_run tokens w d :
  cache_of (cache_file w) = PDict d →
  ∃ more,
    _save_cached_tokens username tokens w =
    (Ok tt, stored w (json_dumps (PDict (set_item username (to_cache_entry tokens) d))) more)
    ∧ requests more = [].
Proof.
  intros Hcache. unfold _save_cached_tokens.
  destruct (read_cache_result w) as (more & Hread & Hmore).
  rewrite (bind_run _ _ _ _ _ Hread), Hcache, bind_lift. cbn [setitem].
  unfold try_except, bind, print, log, emit, write_text, stored. cbn.
  destruct (disk_writable w) eqn:Hdisk; cbn; rewrite ?Hdisk, <- ?app_assoc;
    eexists; (split; [reflexivity|]); by rewrite requests_app, Hmore.
Qed.

Lemma save_cached_tokens_not_object tokens w :
  (∀ d, cache_of (cache_file w) ≠ PDict d) →
  ∃ more, _save_cached_tokens username tokens w = (Raise TypeError, after w more).
Proof.
  intros Hnot. unfold _save_cached_tokens.
  destruct (read_cache_result w) as (more & Hread & _).
  rewrite (bind_run _ _ _ _ _ Hread), bind_lift.
  destruct (cache_of (cache_file w)) as [| | | | | |d]; try by eexists.
  by destruct (Hnot d).
Qed.

(** X5. [_save_cached_tokens] on a cache that is an object (or missing, or
    no JSON, which reads as the empty object) returns normally; on a
    writable disk the file then denotes an object that holds the entry of the
    token under the username and the entry of every other user as before; on
    a disk that refuses the write the file stays as it was.  On a cache that
    is JSON but no object it raises [TypeError] and writes nothing. *)
Theorem save_cached_tokens_keeps_other_users tokens (w : world) :
  let run := _save_cached_tokens username tokens w in
  (∀ d, cache_of (cache_file w) = PDict d →
     run.1 = Ok tt ∧
     (disk_writable w = false → cache_file run.2 = cache_file w) ∧
     (disk_writable w = true →
        ∃ d', cache_file run.2 = Some (json_dumps (PDict d'))
              ∧ lookup_item username d' = Some (to_cache_entry tokens)
              ∧ ∀ other, other ≠ username → lookup_item other d' = lookup_item other d)) ∧
  ((∀ d, cache_of (cache_file w) ≠ PDict d) →
     run.1 = Raise TypeError ∧ cache_file run.2 = cache_file w).
Proof.
  intros run. subst run. split.
  - intros d Hcache.
    destruct (save_cached_tokens_run tokens w d Hcache) as (more & -> & _).
    cbn. split; [done|]. split; intros ->; [done|].
    eexists. split; [done|]. split.
    + apply lookup_set_item_eq.
    + intros other Hother. by apply lookup_set_item_ne.
  - intros Hnot. by destruct (save_cached_tokens_not_object tokens w Hnot) as [more ->].
Qed.

(** *** A login that succeeds *)

Lemma Tokens_init_run access (n : Z) (w : world) :
  Z.abs (n * 1000000) < 1000000000 * calendar.us_per_day →
  0 ≤ now w + n * 1000000 < calendar.max_us →
  Tokens_init access (PInt n) w =
    (Ok {| access_token := access; expire_date := Naive (now w + n * 1000000) |}, w).
Proof.
  intros Hdelta Hrange. unfold Tokens_init, bind, datetime_now, lift, ret.
  cbn [timedelta_seconds]. change calendar.us_per_second with 1000000.
  rewrite (proj2 (Z.ltb_lt _ _) Hdelta). unfold datetime_add.
  rewrite (proj2 (Z.leb_le _ _) (proj1 Hrange)), (proj2 (Z.ltb_lt _ _) (proj2 Hrange)).
  done.
Qed.

Lemma fresh_login_success (w : world) r1 verification_token rest r2 code r3 body n d :
  client (GetLoginPage state code_challenge) = Ok r1 →
  form_input_values r1 = Ok (verification_token :: rest) →
  client (PostLogin username password verification_token state code_challenge) = Ok r2 →
  url_code r2 = Some code →
  client (PostToken code code_verifier) = Ok r3 →
  json_body r3 = Ok (PDict body) →
  lookup_item "error" body = None →
  lookup_item "expires_in" body = Some (PInt n) →
  Z.abs (n * 1000000) < 1000000000 * calendar.us_per_day →
  0 ≤ now w + n * 1000000 < calendar.max_us →
  cache_of (cache_file w) = PDict d →
  let tokens := {| access_token := default PNone (lookup_item "access_token" body);
                   expire_date := Naive (now w + n * 1000000) |} in
  ∃ more,
    fresh_login code_verifier code_challenge state client username password w =
    (Ok tokens,
     stored w (json_dumps (PDict (set_item username (to_cache_entry tokens) d))) more)
    ∧ requests more =
      [Requested (GetLoginPage state code_challenge);
       Requested (PostLogin username password verification_token state code_challenge);
       Requested (PostToken code code_verifier)].
Proof.
  intros Hpage Hform Hsubmit Hcode Hexchange Hjson Herror Hexpires Hdelta Hrange
    Hcache tokens.
  unfold fresh_login, try_except, login.
  rewrite bind_send, Hpage, bind_log, bind_lift, Hform, bind_log, bind_send, Hsubmit,
    bind_log, bind_lift, Hcode, bind_send, Hexchange, bind_lift, Hjson, bind_log,
    bind_lift.
  cbn [has_error]. rewrite Herror.
  rewrite bool_decide_eq_false_2 by (by intros [? [=]]).
  rewrite bind_log, bind_lift. cbn [get]. rewrite bind_lift, Hexpires.
  change (default PNone (Some (PInt n))) with (PInt n).
  match goal with |- context [bind (Tokens_init ?a _) _ ?w'] =>
    rewrite (bind_run _ _ _ _ _ (Tokens_init_run a n w' Hdelta Hrange)) end.
  rewrite bind_log.
  match goal with |- context [bind (_save_cached_tokens _ ?t) _ ?w'] =>
    destruct (save_cached_tokens_run t w' d Hcache) as (more & Hsave & Hmore);
    rewrite (bind_run _ _ _ _ _ Hsave) end.
  exists ([Requested (GetLoginPage state code_challenge);
           Logged DEBUG "Verification code response: %s";
           Logged DEBUG "Verification token: %s";
           Requested (PostLogin username password verification_token state
                        code_challenge);
           Logged DEBUG "Code response: %s";
           Requested (PostToken code code_verifier);
           Logged DEBUG "Token response: %s";
           Logged INFO "Successfully authenticated";
           Logged INFO "Caching token that expires at %s"] ++ more).
  split.
  - unfold ret, stored. cbn. by rewrite <- !app_assoc.
  - by rewrite requests_app, Hmore.
Qed.

(** *** What only logs *)

Lemma only_logs_ret {A} (a : A) : only_logs (ret a).
Proof. intros [t f d tr]. exists []. unfold after. simpl. by rewrite app_nil_r. Qed.
Lemma only_logs_raise {A} e : only_logs (@raise world A e).
Proof. intros [t f d tr]. exists []. unfold after. simpl. by rewrite app_nil_r. Qed.
Lemma only_logs_lift {A} (r : result A) : only_logs (lift r).
Proof. intros [t f d tr]. exists []. unfold after. simpl. by rewrite app_nil_r. Qed.
Lemma only_logs_datetime_now : only_logs datetime_now.
Proof. intros [t f d tr]. exists []. unfold after. simpl. by rewrite app_nil_r. Qed.
Lemma only_logs_print text : only_logs (print text).
Proof. intros w. by exists [Printed text]. Qed.
Lemma only_logs_log lvl text : only_logs (log lvl text).
Proof. intros w. by exists [Logged lvl text]. Qed.

Lemma after_after w more more' : after (after w more) more' = after w (more ++ more').
Proof. unfold after. simpl. by rewrite app_assoc. Qed.

Lemma only_logs_bind {A B} (m : M world A) (k : A → M world B) :
  only_logs m → (∀ a, only_logs (k a)) → only_logs (bind m k).
Proof.
  intros Hm Hk w. unfold bind. destruct (Hm w) as (more & Hw & Hmore).
  destruct (m w) as [[a|e] w1]; simpl in *; subst w1; [|by eauto].
  destruct (Hk a (after w more)) as (more' & -> & Hmore').
  exists (more ++ more'). by rewrite after_after, requests_app, Hmore, Hmore'.
Qed.

Lemma only_logs_try_except {A} (body : M world A) caught handler :
  only_logs body → (∀ e, only_logs (handler e)) →
  only_logs (try_except body caught handler).
Proof.
  intros Hm Hk w. unfold try_except. destruct (Hm w) as (more & Hw & Hmore).
  destruct (body w) as [[a|e] w1]; simpl in *; subst w1; [by eauto|].
  destruct (caught e); [|by eauto].
  destruct (Hk e (after w more)) as (more' & -> & Hmore').
  exists (more ++ more'). by rewrite after_after, requests_app, Hmore, Hmore'.
Qed.

Lemma only_logs_read_cache : only_logs _read_cache.
Proof. intros w. destruct (read_cache_result w) as (more & -> & Hmore). by exists more. Qed.

Ltac only_logs_go :=
  repeat first
    [ match goal with |- ∀ _, _ => intro end
    | apply only_logs_read_cache
    | apply only_logs_bind | apply only_logs_try_except
    | apply only_logs_ret | apply only_logs_raise | apply only_logs_lift
    | apply only_logs_print | apply only_logs_log | apply only_logs_datetime_now
    | case_match ].

Lemma only_logs_load_cached_tokens : only_logs (_load_cached_tokens username).
Proof. unfold _load_cached_tokens. only_logs_go. Qed.

Lemma only_logs_is_expired tokens : only_logs (is_expired tokens).
Proof. unfold is_expired. only_logs_go. Qed.

Lemma load_cached_tokens_raise w e :
  (_load_cached_tokens username w).1 = Raise e → e = AttributeError ∨ e = TypeError.
Proof.
  unfold _load_cached_tokens.
  destruct (read_cache_result w) as (more & Hread & _).
  rewrite (bind_run _ _ _ _ _ Hread), bind_lift.
  destruct (cache_of (cache_file w)) as [| | | | | |d]; cbn [get fst];
    try (intros [= <-]; by left).
  set (entry := default PNone (lookup_item username d)).
  destruct (truthy entry) eqn:Htruthy; cbn [negb]; [|discriminate].
  unfold try_except, bind, print, emit, lift, log, ret. cbn [fst snd].
  destruct (entry_typed entry) eqn:Htyped.
  - pose proof (from_cache_entry_typed entry Htyped) as Hraise.
    destruct (from_cache_entry entry) as [tokens|e']; [discriminate|].
    destruct (Hraise e' eq_refl) as [-> | Hvalue];
      [|rewrite Hvalue, orb_true_r]; discriminate.
  - rewrite (from_cache_entry_untyped entry Htruthy Htyped). cbn.
    intros [= <-]. by right.
Qed.

Lemma is_expired_raise tokens w e : (is_expired tokens w).1 = Raise e → e = TypeError.
Proof.
  unfold is_expired, bind, datetime_now, lift, datetime_lt. cbn.
  destruct (expire_date tokens); cbn; congruence.
Qed.

Lemma fresh_login_raise w e :
  (fresh_login code_verifier code_challenge state client username password w).1 = Raise e →
  e = InvalidAuth.
Proof.
  unfold fresh_login, try_except, any_exception.
  destruct (login _ _ _ _ _ _ w) as [[tokens|e'] w1]; cbn; congruence.
Qed.

(** X2. Whatever the client does, every failure of the login leaves
    [token] as [InvalidAuth]; an exception of another class comes from
    loading the cached entry or from comparing its expiry with the clock,
    and then no request has been made. *)
Theorem token_raises_InvalidAuth_or_on_cache (w : world) (e : exn) :
  let run := token code_verifier code_challenge state client username password w in
  run.1 = Raise e →
  e = InvalidAuth
  ∨ (requests (trace run.2) = requests (trace w)
     ∧ ((_load_cached_tokens username w).1 = Raise e
        ∨ ∃ cached w', _load_cached_tokens username w = (Ok (Some cached), w')
                       ∧ (is_expired cached w').1 = Raise e)).
Proof.
  intros run. subst run. unfold token, bind.
  destruct (only_logs_load_cached_tokens w) as (more & Hw & Hmore).
  destruct (_load_cached_tokens username w) as [[cached|e'] w1];
    cbn [fst snd] in *; subst w1.
  - destruct cached as [cached|]; [|intros H; left; by eapply fresh_login_raise].
    destruct (only_logs_is_expired cached (after w more)) as (more' & Hw' & Hmore').
    destruct (is_expired cached (after w more)) as [[expired|e'] w2] eqn:Hexpired;
      cbn [fst snd] in *; subst w2.
    + destruct expired; [|discriminate].
      intros H. left. eapply fresh_login_raise. exact H.
    + intros [= <-]. right. split.
      * cbn. rewrite !requests_app, Hmore, Hmore'. by rewrite !app_nil_r.
      * right. exists cached, (after w more). by rewrite Hexpired.
  - intros [= <-]. right. split; [|by left].
    cbn. by rewrite requests_app, Hmore, app_nil_r.
Qed.

(** *** The cache file after a failure *)

Lemma keeps_file_only_logs {A} (m : M world A) : only_logs m → keeps_file m.
Proof. intros H w. by destruct (H w) as (more & -> & _). Qed.

Lemma keeps_file_send r : keeps_file (send client r).
Proof. intros w. unfold send, bind, emit, lift. cbn. by destruct (client r). Qed.

Lemma fails_cleanly_keeps {A} (m : M world A) : keeps_file m → fails_cleanly m.
Proof. intros H w e _. apply H. Qed.

Lemma fails_cleanly_bind {A B} (m : M world A) (k : A → M world B) :
  keeps_file m → (∀ a, fails_cleanly (k a)) → fails_cleanly (bind m k).
Proof.
  intros Hm Hk w e. unfold bind. specialize (Hm w).
  destruct (m w) as [[a|e'] w1]; cbn in *; [|done].
  intros H. rewrite <- Hm. by eapply Hk.
Qed.

Lemma fails_cleanly_save_then_return tokens :
  fails_cleanly (bind (_save_cached_tokens username tokens) (λ _, ret tokens)).
Proof.
  intros w e. unfold bind.
  destruct (cache_of (cache_file w)) as [| | | | | |d] eqn:Hd;
    first [ by destruct (save_cached_tokens_run tokens w d Hd) as (more & -> & _)
          | assert (Hnot : ∀ d, cache_of (cache_file w) ≠ PDict d) by (by rewrite Hd);
            by destruct (save_cached_tokens_not_object tokens w Hnot) as (more & ->) ].
Qed.

Lemma fails_cleanly_login :
  fails_cleanly (login code_verifier code_challenge state client username password).
Proof.
  unfold login.
  repeat first
    [ match goal with |- ∀ _, _ => intro end
    | apply fails_cleanly_save_then_return
    | apply fails_cleanly_bind
    | apply keeps_file_send
    | solve [apply keeps_file_only_logs; unfold Tokens_init; only_logs_go]
    | solve [apply fails_cleanly_keeps, keeps_file_only_logs; only_logs_go]
    | case_match ].
Qed.

(** X4. A call of [token] that raises has left the cache file as it was:
    the file is written only by a login that succeeds. *)
Theorem token_failure_keeps_cache_file (w : world) (e : exn) :
  let run := token code_verifier code_challenge state client username password w in
  run.1 = Raise e → cache_file run.2 = cache_file w.
Proof.
  assert (Hfresh : fails_cleanly
            (fresh_login code_verifier code_challenge state client username password)).
  { intros w' e'. unfold fresh_login, try_except, any_exception.
    pose proof (fails_cleanly_login w') as Hlogin.
    destruct (login _ _ _ _ _ _ w') as [[tokens|e''] w1]; cbn in *; [done|].
    intros _. by eapply Hlogin. }
  intros run. subst run. unfold token.
  apply fails_cleanly_bind; [apply keeps_file_only_logs, only_logs_load_cached_tokens|].
  intros [cached|]; [|exact Hfresh].
  apply fails_cleanly_bind; [apply keeps_file_only_logs, only_logs_is_expired|].
  intros [|].
  - apply fails_cleanly_bind; [apply keeps_file_only_logs, only_logs_log|].
    intros _. exact Hfresh.
  - apply fails_cleanly_keeps, keeps_file_only_logs. only_logs_go.
Qed.

(** X3. After a cache miss, when the page has a form value, the redirect a
    code and the token response is an object without [error] whose
    [expires_in] is an [int] that keeps the expiry within the calendar,
    [token] makes the three requests of the protocol, returns the access
    token of the response with the expiry [now + expires_in] seconds, and, on
    a writable disk, stores that token under the username, the other entries
    of the cache kept. *)
Theorem token_logs_in_and_caches (w : world)
    r1 verification_token rest r2 code r3 body n d :
  (_load_cached_tokens username w).1 = Ok None →
  cache_of (cache_file w) = PDict d →
  client (GetLoginPage state code_challenge) = Ok r1 →
  form_input_values r1 = Ok (verification_token :: rest) →
  client (PostLogin username password verification_token state code_challenge) = Ok r2 →
  url_code r2 = Some code →
  client (PostToken code code_verifier) = Ok r3 →
  json_body r3 = Ok (PDict body) →
  lookup_item "error" body = None →
  lookup_item "expires_in" body = Some (PInt n) →
  Z.abs (n * 1000000) < 1000000000 * calendar.us_per_day →
  0 ≤ now w + n * 1000000 < calendar.max_us →
  let tokens := {| access_token := default PNone (lookup_item "access_token" body);
                   expire_date := Naive (now w + n * 1000000) |} in
  let run := token code_verifier code_challenge state client username password w in
  run.1 = Ok tokens ∧
  requests (trace run.2) =
    requests (trace w) ++
    [Requested (GetLoginPage state code_challenge);
     Requested (PostLogin username password verification_token state code_challenge);
     Requested (PostToken code code_verifier)] ∧
  cache_file run.2 =
    (if disk_writable w
     then Some (json_dumps (PDict (set_item username (to_cache_entry tokens) d)))
     else cache_file w).
Proof.
  intros Hload Hcache Hpage Hform Hsubmit Hcode Hexchange Hjson Herror Hexpires
    Hdelta Hrange tokens run. subst run. unfold token, bind.
  destruct (only_logs_load_cached_tokens w) as (more & Hw & Hmore).
  destruct (_load_cached_tokens username w) as [r w1]; cbn in *; subst r w1.
  destruct (fresh_login_success (after w more) r1 verification_token rest r2 code r3
              body n d Hpage Hform Hsubmit Hcode Hexchange Hjson Herror Hexpires
              Hdelta Hrange Hcache) as (more' & -> & Hmore').
  cbn. split; [done|]. split; [|done].
  by rewrite !requests_app, Hmore, Hmore', app_nil_r.
Qed.

End login.

Lemma save_cached_tokens_keeps_other_users_witness :
  let tokens := {| token_auth.access_token := PStr "T";
                   token_auth.expire_date := Naive sample.next_day |} in
  let old := PDict [("access_token", PStr "O");
                    ("expire_date", PStr "2024-01-01T00:00:00")] in
  let w := sample.auth sample.new_year
             (Some (dq "{'v': {'access_token': 'O', 'expire_date': '2024-01-01T00:00:00'}}")) in
  let run := token_auth._save_cached_tokens "u" tokens w in
  (run.1 = Ok tt ∧
   ∃ d', token_auth.cache_file run.2 = Some (json_dumps (PDict d'))
         ∧ lookup_item "u" d' = Some (token_auth.to_cache_entry tokens)
         ∧ lookup_item "v" d' = Some old) ∧
  (token_auth._save_cached_tokens "u" tokens (sample.auth sample.new_year (Some "[]"))).1
    = Raise TypeError.
Proof.
  intros tokens old w run. split.
  - destruct (proj1 (save_cached_tokens_keeps_other_users "u" tokens w)
                [("v", old)] ltac:(vm_compute; reflexivity))
      as (Hrun & _ & Hfile).
    split; [exact Hrun|].
    destruct (Hfile eq_refl) as (d' & Hd' & Hu & Hother).
    exists d'. split; [exact Hd'|]. split; [exact Hu|].
    rewrite (Hother "v" ltac:(vm_compute; discriminate)). vm_compute. reflexivity.
  - apply (proj2 (save_cached_tokens_keeps_other_users "u" tokens
                    (sample.auth sample.new_year (Some "[]")))).
    intros d. vm_compute. discriminate.
Defined.

Lemma token_raises_InvalidAuth_or_on_cache_witness :
  let run client file :=
    token_auth.token "verifier" "challenge" "state" client "u" "secret"
      (sample.auth sample.new_year file) in
  (run sample.offline None).1 = Raise InvalidAuth ∧
  (run sample.online (Some "5")).1 = Raise AttributeError ∧
  token_auth.requests (token_auth.trace (run sample.online (Some "5")).2) = [].
Proof.
  intros run. split; [vm_compute; reflexivity|]. split; [vm_compute; reflexivity|].
  destruct (token_raises_InvalidAuth_or_on_cache
              "verifier" "challenge" "state" sample.online "u" "secret"
              (sample.auth sample.new_year (Some "5")) AttributeError
              ltac:(vm_compute; reflexivity)) as [Hauth | [Hrequests _]].
  - discriminate Hauth.
  - exact Hrequests.
Defined.

Lemma token_failure_keeps_cache_file_witness :
  let file := Some (dq "{'v': {'access_token': 'O', 'expire_date': '2024-01-01T00:00:00'}}") in
  let w := sample.auth sample.new_year file in
  token_auth.cache_file
    (token_auth.token "verifier" "challenge" "state" sample.offline "u" "secret" w).2
  = file.
Proof.
  intros file w.
  apply (token_failure_keeps_cache_file
           "verifier" "challenge" "state" sample.offline "u" "secret" w InvalidAuth).
  vm_compute. reflexivity.
Defined.

Lemma token_logs_in_and_caches_witness :
  let w := sample.auth sample.new_year None in
  let tokens := {| token_auth.access_token := PStr "eyJ";
                   token_auth.expire_date := Naive (sample.new_year + 3600 * 1000000) |} in
  let run := token_auth.token "verifier" "challenge" "state" sample.online "u" "secret" w in
  run.1 = Ok tokens ∧
  token_auth.requests (token_auth.trace run.2) =
    [token_auth.Requested (token_auth.GetLoginPage "state" "challenge");
     token_auth.Requested (token_auth.PostLogin "u" "secret" "CfDJ8" "state" "challenge");
     token_auth.Requested (token_auth.PostToken "4F2A" "verifier")] ∧
  token_auth.cache_file run.2 =
    Some (json_dumps (PDict [("u", token_auth.to_cache_entry tokens)])).
Proof.
  intros w tokens run.
  exact (token_logs_in_and_caches
           "verifier" "challenge" "state" sample.online "u" "secret" w
           _ "CfDJ8" [] _ "4F2A" _ [("access_token", PStr "eyJ"); ("expires_in", PInt 3600)]
           3600 []
           ltac:(vm_compute; reflexivity) ltac:(vm_compute; reflexivity)
           eq_refl eq_refl eq_refl eq_refl eq_refl eq_refl
           ltac:(vm_compute; reflexivity) ltac:(vm_compute; reflexivity)
           ltac:(vm_compute; reflexivity)
           ltac:(vm_compute; split; [discriminate|reflexivity])).
Defined.

(** ** The content of a Status (wolf.py) *)

Section build_status_content.
Import wolf spec.
Implicit Types (st : status) (parameters : list Param.t) (values : list Value.t).

Lemma last_at_snoc parameters values val p n :
  last_at parameters (values ++ [val]) p n =
  if bool_decide (path_of parameters val = Some (p, n))
  then Some (Value.value val) else last_at parameters values p n.
Proof.
  unfold last_at. rewrite List.filter_app. simpl.
  case_bool_decide; [by rewrite last_snoc | by rewrite app_nil_r].
Qed.

Lemma reading_at_put p0 n0 x st st' p n :
  put p0 n0 x st = Ok st' →
  reading_at st' p n =
  if bool_decide ((p0, n0) = (p, n)) then Some x else reading_at st p n.
Proof.
  unfold put, reading_at. intros Hput.
  destruct (decide (p0 = p)) as [<-|Hp].
  - destruct (st !! p0) as [[a|g]|] eqn:Hst; simplify_eq; rewrite lookup_insert_eq.
    + destruct (decide (n0 = n)) as [<-|Hn].
      * by rewrite bool_decide_eq_true_2, lookup_insert_eq.
      * rewrite bool_decide_eq_false_2 by congruence. by rewrite lookup_insert_ne.
    + destruct (decide (n0 = n)) as [<-|Hn].
      * by rewrite bool_decide_eq_true_2, lookup_singleton_eq.
      * rewrite bool_decide_eq_false_2 by congruence. by rewrite lookup_singleton_ne.
  - rewrite bool_decide_eq_false_2 by congruence.
    destruct (st !! p0) as [[a|g]|] eqn:Hst; simplify_eq; by rewrite lookup_insert_ne.
Qed.

(** What the loop has built when no reading is under ["time"]: the
    timestamp is the only entry that is no group, no group is empty, and each
    key path holds the value of the last reading stored at it. *)
Lemma fold_turn_last parameters values a :
  (∀ val, val ∈ values → ¬ under_time parameters val) →
  ∃ st, fold_left (turn parameters) values (Ok {["time" := Stamp a]}) = Ok st
        ∧ (∀ p text, st !! p = Some (Stamp text) ↔ p = "time" ∧ text = a)
        ∧ (∀ p g, st !! p = Some (Group g) → g ≠ ∅)
        ∧ ∀ p n, reading_at st p n = last_at parameters values p n.
Proof.
  induction values as [|val values IH] using rev_ind; intros Hfree.
  { eexists. split; [done|]. split; [|split].
    - intros p text. destruct (decide (p = "time")) as [->|Hp].
      + rewrite lookup_singleton_eq. split; [by intros [= ->] | by intros [_ ->]].
      + rewrite lookup_singleton_ne by done. split; [done | by intros [? _]].
    - intros p g. destruct (decide (p = "time")) as [->|Hp].
      + by rewrite lookup_singleton_eq.
      + by rewrite lookup_singleton_ne.
    - intros p n. unfold reading_at. destruct (decide (p = "time")) as [->|Hp].
      + by rewrite lookup_singleton_eq.
      + by rewrite lookup_singleton_ne. }
  destruct IH as (st & Hfold & Hstamp & Hgroup & Hread).
  { intros v Hv. apply Hfree. apply elem_of_app. by left. }
  rewrite fold_left_app, Hfold. simpl. unfold path_of in *.
  destruct (find_by_value_id parameters (Value.value_id val)) as [par|] eqn:Hfind.
  - assert (Hparent : Param.parent par ≠ "time").
    { intros Htime. apply (Hfree val); [apply elem_of_app; right; by left|].
      by exists par. }
    destruct (put (Param.parent par) (Param.name par) (Value.value val) st)
      as [st'|e] eqn:Hput.
    + exists st'. split; [done|]. split; [|split].
      * intros p text. rewrite <- Hstamp. revert Hput. unfold put.
        destruct (decide (Param.parent par = p)) as [<-|Hp].
        -- destruct (st !! Param.parent par) as [[b|g]|] eqn:Hst; intros [= <-];
             rewrite lookup_insert_eq; split; discriminate.
        -- repeat case_match; intros [= <-]; by rewrite lookup_insert_ne.
      * intros p g. revert Hput. unfold put.
        destruct (decide (Param.parent par = p)) as [<-|Hp].
        -- repeat case_match; intros [= <-]; rewrite lookup_insert_eq;
             intros [= <-]; apply insert_non_empty.
        -- repeat case_match; intros [= <-]; rewrite lookup_insert_ne by done;
             apply Hgroup.
      * intros p n. rewrite (reading_at_put _ _ _ _ _ p n Hput), last_at_snoc.
        unfold path_of. rewrite Hfind. simpl.
        repeat case_bool_decide; simplify_eq; first [done | apply Hread].
    + exfalso. revert Hput. unfold put.
      destruct (st !! Param.parent par) as [[b|g]|] eqn:Hst; try discriminate.
      by apply Hstamp in Hst as [? _].
  - exists st. split; [done|]. split; [done|]. split; [done|].
    intros p n. rewrite last_at_snoc. unfold path_of. rewrite Hfind. simpl.
    apply Hread.
Qed.

(** X6. When no reading matches a parameter whose parent is ["time"],
    [_build_status] returns: the Status holds the formatted clock under
    ["time"], and under every parent and name the value of the last reading
    whose parameter has that parent and name; a parent is present exactly
    when it is ["time"] or some reading is stored under it. *)
Theorem build_status_keeps_last_reading parameters values (w : world) :
  (∀ val, val ∈ values → ¬ under_time parameters val) →
  ∃ st, (_build_status parameters values w).1 = Ok st
        ∧ st !! "time" = Some (Stamp (strftime_dmY_HMS (now w)))
        ∧ (∀ parent name,
             reading_at st parent name = last_at parameters values parent name)
        ∧ ∀ parent, is_Some (st !! parent) ↔
            parent = "time" ∨ ∃ name, is_Some (last_at parameters values parent name).
Proof.
  intros Hfree. rewrite build_status_fold.
  destruct (fold_turn_last parameters values (strftime_dmY_HMS (now w)) Hfree)
    as (st & -> & Hstamp & Hgroup & Hread).
  exists st. split; [done|]. split; [by apply Hstamp|]. split; [done|].
  intros parent. split.
  - intros [[text|g] Hst].
    + left. by apply Hstamp in Hst as [? _].
    + right. destruct (map_choose g (Hgroup _ _ Hst)) as (name & x & Hx).
      exists name. rewrite <- Hread. unfold reading_at. by rewrite Hst.
  - intros [-> | (name & Hname)].
    + exists (Stamp (strftime_dmY_HMS (now w))). by apply Hstamp.
    + rewrite <- Hread in Hname. unfold reading_at in Hname.
      destruct (st !! parent); [done|]. by destruct Hname.
Qed.

End build_status_content.

Lemma build_status_keeps_last_reading_witness :
  ∃ st,
    (wolf._build_status [sample.boiler_heating; sample.boiler_pressure]
       [sample.reading 7 "20"; sample.reading 99 "?"; sample.reading 7 "21"]
       (sample.bridge sample.new_year None)).1 = Ok st
    ∧ spec.reading_at st "Boiler" "Heating" = Some (PStr "21")
    ∧ spec.reading_at st "Boiler" "Pressure" = None.
Proof.
  destruct (build_status_keeps_last_reading
              [sample.boiler_heating; sample.boiler_pressure]
              [sample.reading 7 "20"; sample.reading 99 "?"; sample.reading 7 "21"]
              (sample.bridge sample.new_year None))
    as (st & Hst & _ & Hread & _).
  - intros val Hval (par & Hfind & Hparent).
    repeat (apply elem_of_cons in Hval as [-> | Hval];
            [vm_compute in Hfind; simplify_eq; vm_compute in Hparent; discriminate|]).
    by apply elem_of_nil in Hval.
  - exists st. split; [exact Hst|]. rewrite !Hread. split; vm_compute; reflexivity.
Defined.

Section build_status_effects.
Import wolf spec.
Implicit Types (st : status) (parameters : list Param.t) (values : list Value.t).

Lemma fold_turn_known parameters values r :
  fold_left (turn parameters) values r =
  fold_left (turn parameters) (List.filter (known parameters) values) r.
Proof.
  revert r. induction values as [|val values IH]; intros r; [done|].
  cbn [fold_left List.filter]. destruct (known parameters val) eqn:Hknown.
  - cbn [fold_left]. apply IH.
  - rewrite <- IH. f_equal. apply bool_decide_eq_false in Hknown.
    unfold turn. destruct (find_by_value_id _ _); [by destruct Hknown|by destruct r].
Qed.

Lemma build_loop_effects parameters values st w :
  let run := build_loop parameters values st w in
  let skipped := List.filter (λ val, negb (known parameters val)) values in
  now run.2 = now w ∧ cache_file run.2 = cache_file w ∧ client run.2 = client w ∧
  ∃ k, trace run.2 = trace w ++ replicate k (Logged DEBUG "Skipping unknown value %s")
       ∧ (k ≤ length skipped)%nat
       ∧ (returns run.1 → k = length skipped).
Proof.
  revert st w. induction values as [|val values IH]; intros st w.
  { cbn. repeat split. exists 0%nat. by rewrite app_nil_r. }
  cbn [build_loop List.filter].
  destruct (known parameters val) eqn:Hknown; cbn [negb length].
  - apply bool_decide_eq_true in Hknown as [par Hfind]. rewrite Hfind.
    unfold bind, lift. destruct (put _ _ _ st) as [st'|e]; [apply IH|].
    cbn. repeat split. exists 0%nat. rewrite app_nil_r.
    split; [done|]. split; [lia|]. by intros [? [=]].
  - apply bool_decide_eq_false in Hknown.
    destruct (find_by_value_id _ _) as [par|]; [by destruct Hknown|].
    unfold bind, log, emit.
    destruct (IH st {| now := now w; cache_file := cache_file w; client := client w;
                       trace := trace w ++ [Logged DEBUG "Skipping unknown value %s"] |})
      as (Hnow & Hfile & Hclient & k & Htrace & Hle & Hret).
    cbn in *. repeat split; [done..|]. exists (S k).
    rewrite Htrace, <- app_assoc. split; [done|]. split; [lia|].
    intros H. by rewrite (Hret H).
Qed.

(** X7. A reading whose value id no parameter has changes nothing of the
    Status: [_build_status] gives what it gives on the known readings alone.
    It leaves the clock, the cache file and the MQTT client as they are, and
    all it adds to the trace is one debug record for each unknown reading it
    has passed. *)
Theorem build_status_skips_unknown parameters values (w : world) :
  let run := _build_status parameters values w in
  let skipped := List.filter (λ val, negb (known parameters val)) values in
  run.1 = (_build_status parameters (List.filter (known parameters) values) w).1 ∧
  now run.2 = now w ∧ cache_file run.2 = cache_file w ∧ client run.2 = client w ∧
  ∃ k, trace run.2 = trace w ++ replicate k (Logged DEBUG "Skipping unknown value %s")
       ∧ (k ≤ length skipped)%nat
       ∧ (returns run.1 → k = length skipped).
Proof.
  intros run skipped. split.
  - subst run. rewrite !build_status_fold. apply fold_turn_known.
  - subst run skipped. unfold _build_status, bind, datetime_now.
    apply build_loop_effects.
Qed.

End build_status_effects.

(** ** Command payloads, in general (wolf.py) *)

Section command_payloads.
Import wolf.

Lemma lstrip_by_all p cs : forallb p cs = true → lstrip_by p cs = [].
Proof.
  induction cs as [|c cs IH]; [done|]. cbn. destruct (p c); [apply IH|done].
Qed.

(** [lstrip_by] cuts a run of [p] off the front, up to a character that
    fails [p]. *)
Lemma lstrip_by_split p cs :
  ∃ ws, cs = ws ++ lstrip_by p cs ∧ forallb p ws = true
        ∧ ∀ c, head (lstrip_by p cs) = Some c → p c = false.
Proof.
  induction cs as [|c cs (ws & Hcs & Hws & Hhead)]; [by exists []|].
  cbn. destruct (p c) eqn:Hc.
  - exists (c :: ws). cbn. rewrite Hc, Hws. by rewrite <- Hcs.
  - exists []. split; [done|]. split; [done|]. by intros ? [= <-].
Qed.

Lemma last_rev {A} (l : list A) : last (rev l) = head l.
Proof. rewrite rev_alt. apply last_reverse. Qed.

(** [rstrip_by] cuts a run of [p] off the back. *)
Lemma rstrip_by_split p cs :
  ∃ ws, cs = rstrip_by p cs ++ ws ∧ forallb p ws = true
        ∧ ∀ c, last (rstrip_by p cs) = Some c → p c = false.
Proof.
  unfold rstrip_by. destruct (lstrip_by_split p (rev cs)) as (ws & Hcs & Hws & Hhead).
  exists (rev ws). split; [|split].
  - by rewrite <- rev_app_distr, <- Hcs, rev_involutive.
  - rewrite forallb_forall in *. intros c Hc. apply Hws. by apply in_rev.
  - intros c Hc. apply Hhead. by rewrite last_rev in Hc.
Qed.

(** [break_at] cuts at the first character that passes [p]. *)
Lemma break_at_split p cs :
  cs = (break_at p cs).1 ++ (break_at p cs).2
  ∧ forallb (λ c, negb (p c)) (break_at p cs).1 = true
  ∧ ∀ c, head (break_at p cs).2 = Some c → p c = true.
Proof.
  induction cs as [|c cs (Hcs & Hw & Hhead)]; [done|].
  cbn. destruct (p c) eqn:Hc.
  - split; [done|]. split; [done|]. by intros ? [= <-].
  - destruct (break_at p cs) as [w r]. cbn in *. rewrite Hc, Hw.
    split; [by rewrite <- Hcs|done].
Qed.

Lemma lstrip_by_head p c cs : p c = false → lstrip_by p (c :: cs) = c :: cs.
Proof. intros Hc. cbn. by rewrite Hc. Qed.

(** A stripped text neither starts nor ends with whitespace. *)
Lemma strip_ends payload :
  (∀ c, head (chars (strip payload)) = Some c → isspace c = false)
  ∧ (∀ c, last (chars (strip payload)) = Some c → isspace c = false).
Proof.
  unfold strip. cbn [chars].
  destruct (lstrip_by_split isspace (chars payload)) as (ws & _ & _ & Hhead).
  destruct (rstrip_by_split isspace (lstrip_by isspace (chars payload)))
    as (ws' & Hcs & _ & Hlast).
  split; [|done]. intros c Hc. apply Hhead. rewrite Hcs.
  destruct (rstrip_by isspace _); [done|]. exact Hc.
Qed.

Lemma parse_set_payload_raises (payload : str) (e : exn) :
  _parse_set_payload payload = Raise e →
  e = ValueError
  ∨ (e = AttributeError ∧ ∃ v, json_loads (strip payload) = Ok v ∧ ∀ d, v ≠ PDict d).
Proof.
  unfold _parse_set_payload.
  case_bool_decide; [intros [= <-]; by left|].
  destruct (loads_total (strip payload)) as [[v Hv] | Hraise];
    unfold json_loads; [rewrite Hv | rewrite Hraise].
  - destruct v as [| | | | | |d];
      try (intros [= <-]; right; split; [done|]; eexists; split; [done|]; done).
    unfold rbind. cbn [get]. repeat case_match; try done; intros [= <-]; by left.
  - repeat case_match; try done; intros [= <-]; by left.
Qed.

(** X8. [_parse_set_payload] raises [ValueError] on a payload of
    whitespace alone; when it returns, neither the name nor the value is
    [None]; and it raises nothing but [ValueError] and, on a payload that is
    JSON but no object, [AttributeError]. *)
Theorem parse_set_payload_outcomes (payload : str) :
  (forallb isspace (chars payload) = true →
     _parse_set_payload payload = Raise ValueError) ∧
  (∀ name value, _parse_set_payload payload = Ok (name, value) →
     name ≠ PNone ∧ value ≠ PNone) ∧
  (∀ e, _parse_set_payload payload = Raise e →
     e = ValueError
     ∨ (e = AttributeError
        ∧ ∃ v, json_loads (strip payload) = Ok v ∧ ∀ d, v ≠ PDict d)).
Proof.
  split; [|split].
  - intros Hblank. unfold _parse_set_payload, strip. cbn [chars].
    by rewrite (lstrip_by_all _ _ Hblank).
  - intros name value. unfold _parse_set_payload.
    case_bool_decide; [done|].
    destruct (loads_total (strip payload)) as [[v Hv] | Hraise];
      unfold json_loads; [rewrite Hv | rewrite Hraise].
    + destruct v as [| | | | | |d]; try done. unfold rbind. cbn [get].
      generalize (default PNone (lookup_item "value" d)).
      generalize (default PNone (lookup_item "name" d)).
      generalize (default PNone (lookup_item "parameter" d)).
      generalize (default PNone (lookup_item "parameter_name" d)).
      intros n3 n2 n1 v. repeat case_match; simplify_eq; try done;
        intros [= <- <-];
        match goal with H : _ || _ = false |- _ =>
          apply orb_false_elim in H as [Hname Hvalue] end;
        split; intros ->; done.
    + repeat case_match; try done. by intros [= <- <-].
  - apply parse_set_payload_raises.
Qed.

(** X9. A payload that is no JSON is read as two words: the stripped
    payload is the name, a run of whitespace and the value, where the name
    is not empty and holds no whitespace, and the value is not empty and
    starts and ends with a character that is no whitespace. *)
Theorem parse_set_payload_splits_once (payload : str) (name value : obj) :
  json_loads (strip payload) = Raise JSONDecodeError →
  _parse_set_payload payload = Ok (name, value) →
  ∃ n ws v,
    name = PStr (Str n) ∧ value = PStr (Str v)
    ∧ chars (strip payload) = n ++ ws ++ v
    ∧ n ≠ [] ∧ forallb (λ c, negb (isspace c)) n = true
    ∧ ws ≠ [] ∧ forallb isspace ws = true
    ∧ (∃ c, head v = Some c ∧ isspace c = false)
    ∧ (∃ c, last v = Some c ∧ isspace c = false).
Proof.
  intros Hjson. unfold _parse_set_payload. rewrite Hjson.
  case_bool_decide as Hempty; [done|].
  destruct (strip_ends payload) as [Hhead Hlast].
  unfold split_None_1.
  destruct (chars (strip payload)) as [|c cs] eqn:Hcs; [done|]. clear Hempty.
  rewrite (lstrip_by_head _ _ _ (Hhead c eq_refl)).
  destruct (break_at_split isspace (c :: cs)) as (Hsplit & Hw & Hr).
  destruct (break_at isspace (c :: cs)) as [w r] eqn:Hbreak. cbn [fst snd] in *.
  destruct (lstrip_by_split isspace r) as (ws & Hws & Hspace & Hv).
  destruct (lstrip_by isspace r) as [|c' v] eqn:Hstrip; [done|].
  intros [= <- <-]. exists w, ws, (c' :: v).
  split; [done|]. split; [done|]. split; [by rewrite Hsplit, Hws at 1|].
  split; [|split; [done|split; [|split; [done|split]]]].
  - intros ->. cbn in Hbreak. rewrite (Hhead c eq_refl) in Hbreak.
    by destruct (break_at isspace cs).
  - intros ->. cbn in Hws. subst r. specialize (Hr c' eq_refl).
    by rewrite (Hv c' eq_refl) in Hr.
  - exists c'. split; [done|]. by apply Hv.
  - destruct (last (c' :: v)) as [c''|] eqn:Hc''.
    + exists c''. split; [done|]. apply Hlast.
      rewrite Hsplit, Hws, !last_app, Hc''. done.
    + by apply last_None in Hc''.
Qed.

End command_payloads.

Lemma parse_set_payload_splits_once_witness :
  ∃ n ws v,
    PStr "Heating" = PStr (Str n) ∧ PStr "21.5 C" = PStr (Str v)
    ∧ chars (strip "  Heating 	 21.5 C ") = n ++ ws ++ v
    ∧ n ≠ [] ∧ forallb (λ c, negb (isspace c)) n = true
    ∧ ws ≠ [] ∧ forallb isspace ws = true
    ∧ (∃ c, head v = Some c ∧ isspace c = false)
    ∧ (∃ c, last v = Some c ∧ isspace c = false).
Proof.
  apply (parse_set_payload_splits_once "  Heating 	 21.5 C ");
    vm_compute; reflexivity.
Defined.

(** ** The command handler, in general (wolf.py) *)

Section command_handler.
Import wolf.
Variable fails : list event → event → option exn.
Variable loop_is_running : list event → bool.

(** What one call of [_set_parameter] does: no write for a name the catalog
    lacks, one write for the first parameter of the name, and an exception
    only when the write raised outside a running loop. *)
Lemma set_parameter_run (gateway_id system_id : Z) (parameters : list Param.t)
    (name value : obj) (w : world) :
  let run :=
    _set_parameter fails loop_is_running gateway_id system_id parameters name value w in
  now run.2 = now w ∧ cache_file run.2 = cache_file w ∧ client run.2 = client w ∧
  mqtt_calls (trace run.2) = mqtt_calls (trace w) ∧
  match find_by_name parameters name with
  | None => run.1 = Ok tt ∧ writes (trace run.2) = writes (trace w)
  | Some target =>
      let write :=
        WriteValue gateway_id system_id (Param.bundle_id target)
          {| VALUE_ID := Param.value_id target; STATE := value |} in
      writes (trace run.2) = writes (trace w) ++ [write]
      ∧ (run.1 = Ok tt
         ∨ ∃ tr e, run.1 = Raise e ∧ loop_is_running tr = false
                   ∧ fails tr write = Some e ∧ trace run.2 = tr ++ [write])
  end.
Proof.
  intros run. subst run. unfold _set_parameter, bind, print, log, emit. cbn.
  destruct (find_by_name parameters name) as [target|]; cbn.
  - unfold is_running, try_except, bind, call, log, emit, ret. cbn.
    destruct (loop_is_running _) eqn:Hrun; cbn;
      destruct (fails _ _) eqn:Hfails; cbn;
      rewrite ?mqtt_calls_app, ?writes_app; cbn; rewrite ?app_nil_r;
      repeat split; eauto 10.
  - rewrite ?mqtt_calls_app, ?writes_app; cbn. by rewrite ?app_nil_r.
Qed.

(** X10. Whatever the payload, the handler issues at most one write, and
    only the one it was asked for: to the catalog's first parameter of the
    name parsed from the payload, on the configured gateway and system,
    with the parsed value.  It never calls the MQTT client and leaves the
    clock and the cache file as they are. *)
Theorem on_message_writes_only_what_was_asked
    (gateway_id system_id : Z) (parameters : list Param.t) (msg : bytes) (w : world) :
  let run :=
    _on_message fails loop_is_running gateway_id system_id parameters msg w in
  now run.2 = now w ∧ cache_file run.2 = cache_file w ∧ client run.2 = client w ∧
  mqtt_calls (trace run.2) = mqtt_calls (trace w) ∧
  (writes (trace run.2) = writes (trace w)
   ∨ ∃ name value target,
       _parse_set_payload (decode_utf8_ignore msg) = Ok (name, value)
       ∧ find_by_name parameters name = Some target
       ∧ writes (trace run.2) =
           writes (trace w) ++
           [WriteValue gateway_id system_id (Param.bundle_id target)
              {| VALUE_ID := Param.value_id target; STATE := value |}]).
Proof.
  intros run. subst run. unfold _on_message, try_except, bind, lift, ret.
  destruct (_parse_set_payload (decode_utf8_ignore msg)) as [[name value]|e] eqn:Hparse.
  - unfold log, emit. cbv beta iota.
    match goal with |- context [_set_parameter _ _ _ _ _ _ _ ?w'] =>
      pose proof (set_parameter_run gateway_id system_id parameters name value w')
        as (Hnow & Hfile & Hclient & Hmqtt & Hwrites) end.
    cbn in *. rewrite Hnow, Hfile, Hclient, Hmqtt, mqtt_calls_app. cbn.
    rewrite app_nil_r. repeat split.
    destruct (find_by_name parameters name) as [target|] eqn:Hfind.
    + destruct Hwrites as [Hwrites _]. right. exists name, value, target.
      rewrite Hwrites, writes_app. cbn. by rewrite app_nil_r.
    + destruct Hwrites as [_ Hwrites]. left.
      rewrite Hwrites, writes_app. cbn. by rewrite app_nil_r.
  - destruct (is_ValueError e); cbn; rewrite ?mqtt_calls_app, ?writes_app; cbn;
      rewrite ?app_nil_r; repeat split; by left.
Qed.

(** X11. The handler raises in two cases only: [AttributeError], before
    anything is logged or written, when the payload is JSON but no object;
    and the exception of the write, when the write raised while the event
    loop was not running.  With the loop running no failure of a write
    reaches the caller. *)
Theorem on_message_raises_only
    (gateway_id system_id : Z) (parameters : list Param.t) (msg : bytes) (w : world)
    (e : exn) :
  let run :=
    _on_message fails loop_is_running gateway_id system_id parameters msg w in
  run.1 = Raise e →
  (e = AttributeError ∧ run.2 = w
   ∧ ∃ v, json_loads (strip (decode_utf8_ignore msg)) = Ok v ∧ ∀ d, v ≠ PDict d)
  ∨ (∃ tr write, is_write write = true ∧ loop_is_running tr = false
                 ∧ fails tr write = Some e ∧ trace run.2 = tr ++ [write]).
Proof.
  intros run. subst run. unfold _on_message, try_except, bind, lift, ret.
  destruct (_parse_set_payload (decode_utf8_ignore msg)) as [[name value]|e'] eqn:Hparse.
  - unfold log, emit. cbv beta iota.
    match goal with |- context [_set_parameter _ _ _ _ _ _ _ ?w'] =>
      pose proof (set_parameter_run gateway_id system_id parameters name value w')
        as (_ & _ & _ & _ & Hwrites) end.
    cbn in *. intros Hraise. right.
    destruct (find_by_name parameters name) as [target|].
    + destruct Hwrites as [_ [Hok | (tr & e' & He' & Hrun & Hfails & Htrace)]];
        [congruence|].
      exists tr. eexists. split; [|split; [done|split; [|done]]]; [done|].
      congruence.
    + destruct Hwrites as [Hok _]. congruence.
  - destruct (parse_set_payload_raises _ _ Hparse) as [-> | (-> & Hjson)]; cbn.
    + discriminate.
    + intros [= <-]. by left.
Qed.

End command_handler.

Lemma on_message_raises_only_witness :
  let fails := λ (_ : list wolf.event) (e : wolf.event),
                 if wolf.is_write e then Some (Failure 7) else None in
  let run :=
    wolf._on_message fails sample.not_running 1 2 [sample.boiler_heating]
      (encode_ascii "Heating 21") (sample.bridge sample.new_year None) in
  (Failure 7 = AttributeError ∧ run.2 = sample.bridge sample.new_year None
   ∧ ∃ v, json_loads (strip (decode_utf8_ignore (encode_ascii "Heating 21"))) = Ok v
          ∧ ∀ d, v ≠ PDict d)
  ∨ (∃ tr write, wolf.is_write write = true ∧ sample.not_running tr = false
                 ∧ fails tr write = Some (Failure 7)
                 ∧ wolf.trace run.2 = tr ++ [write]).
Proof.
  intros fails run.
  apply (on_message_raises_only fails sample.not_running 1 2
           [sample.boiler_heating] (encode_ascii "Heating 21")
           (sample.bridge sample.new_year None) (Failure 7)).
  vm_compute. reflexivity.
Defined.

(** ** MQTT settings, in general (wolf.py) *)

Section mqtt_settings.
Import wolf.

Lemma digits_value_nonneg ds : forallb is_digit ds = true → 0 ≤ digits_value ds.
Proof.
  unfold digits_value.
  assert (H : ∀ acc, 0 ≤ acc → forallb is_digit ds = true →
                0 ≤ fold_left (λ acc d, 10 * acc + (Z.of_N d - 48)) ds acc).
  { induction ds as [|d ds IH]; intros acc Hacc; cbn; [done|].
    intros [Hd Hds]%andb_prop. apply IH; [|done].
    apply andb_prop in Hd as [Hd%N.leb_le _]. lia. }
  by apply H.
Qed.

Lemma partition_nonempty c cs :
  cs ≠ [] → (urllib.partition c cs).1.1 ≠ [] ∨ (urllib.partition c cs).1.2 = true.
Proof.
  destruct cs as [|x cs]; [done|]. intros _. unfold urllib.partition. cbn.
  destruct (c =? x)%N; [by right|].
  destruct (break_at (N.eqb c) cs) as [before [|y after]]; by left.
Qed.

Lemma hostname_nonempty p host : urllib.hostname p = Some host → host ≠ "".
Proof.
  unfold urllib.hostname.
  destruct ((urllib.hostinfo p).1) as [|x cs] eqn:Hinfo; [done|].
  pose proof (partition_nonempty 37 (x :: cs) ltac:(done)) as Hpart.
  destruct (urllib.partition 37 (x :: cs)) as [[name percent] zone]. cbn in Hpart.
  intros [= <-] [= Hempty]. apply app_eq_nil in Hempty as [Hname Hrest].
  destruct Hpart as [Hpart | ->]; [|done].
  apply Hpart. by destruct name.
Qed.

Lemma port_range p n : urllib.port p = Ok (Some n) → 0 ≤ n ≤ 65535.
Proof.
  unfold urllib.port. destruct ((urllib.hostinfo p).2) as [|d ds]; [done|].
  destruct (forallb is_digit (d :: ds)) eqn:Hdigits; [|done]. cbn [andb].
  destruct (digits_value (d :: ds) <=? 65535) eqn:Hle; [|done].
  intros [= <-]. split; [by apply digits_value_nonneg | lia].
Qed.

Lemma parse_mqtt_url_outcomes value :
  match _parse_mqtt_url value with
  | Ok (host, port, scheme) => host ≠ "" ∧ 0 ≤ port ≤ 65535
  | Raise e => e = ValueError
  end.
Proof.
  assert (Hurl : ∀ url scheme e, urllib.urlparse url scheme = Raise e → e = ValueError).
  { intros url scheme e. unfold urllib.urlparse. repeat case_match; congruence. }
  assert (Hport : ∀ p e, urllib.port p = Raise e → e = ValueError).
  { intros p e. unfold urllib.port. repeat case_match; congruence. }
  unfold _parse_mqtt_url, rbind.
  destruct (urllib.urlparse value "") as [parsed|e] eqn:Hparsed; [|by eapply Hurl].
  destruct (match urllib.hostname parsed with
            | Some _ => Ok parsed
            | None => urllib.urlparse (Str (chars "//" ++ chars value)) "mqtt"
            end) as [parsed'|e] eqn:Hparsed'.
  - destruct (urllib.hostname parsed') as [host|] eqn:Hhost; [|done].
    destruct (urllib.port parsed') as [[port|]|e] eqn:Hp; [| |by eapply Hport].
    + split; [by eapply hostname_nonempty | by eapply port_range].
    + split; [by eapply hostname_nonempty|]. destruct (_ || _); lia.
  - destruct (urllib.hostname parsed); [done|]. by eapply Hurl.
Qed.

(** X12. The settings [_resolve_mqtt_settings] returns have a host that is
    not empty, a port from 0 to 65535, a username that is neither empty nor
    [anonymous] in any case of letters, and a password that is not the empty
    text.  It returns no settings only for a section that is falsy or has no
    truthy [url], and it raises nothing but [ValueError] (the URL has no
    host or no valid port) and [AttributeError] (the section is no object,
    or the URL no text). *)
Theorem resolve_mqtt_settings_invariants (mqtt_section : obj) :
  match _resolve_mqtt_settings mqtt_section with
  | Ok (Some settings) =>
      host settings ≠ "" ∧ 0 ≤ port settings ≤ 65535
      ∧ (∀ u, username settings = Some u → u ≠ "" ∧ lower u ≠ "anonymous")
      ∧ password settings ≠ PStr ""
  | Ok None =>
      truthy mqtt_section = false
      ∨ ∃ d, mqtt_section = PDict d
             ∧ truthy (default PNone (lookup_item "url" d)) = false
  | Raise e => e = ValueError ∨ e = AttributeError
  end.
Proof.
  unfold _resolve_mqtt_settings.
  destruct (truthy mqtt_section) eqn:Hsection; cbn [negb]; [|by left].
  destruct mqtt_section as [| | | | | |d]; try (by right). cbn [get rbind].
  set (url := default PNone (lookup_item "url" d)).
  destruct (truthy url) eqn:Hurl; cbn [negb]; [|right; by exists d].
  destruct url as [| | | |url| |]; try (by right). clear Hurl.
  pose proof (parse_mqtt_url_outcomes url) as Hparse.
  destruct (_parse_mqtt_url url) as [[[h p] sch]|e]; [|by left]. cbn.
  destruct Hparse as [Hhost Hport]. split; [done|]. split; [done|]. split.
  - intros u. destruct (default PNone (lookup_item "username" d)); try done.
    case_match eqn:Hname; [done|]. intros [= <-].
    apply orb_false_elim in Hname as [Hanon Hempty].
    split; [by apply bool_decide_eq_false in Hempty
           | by apply bool_decide_eq_false in Hanon].
  - destruct (default PNone (lookup_item "password" d)); try done.
    case_bool_decide; [done|]. congruence.
Qed.

End mqtt_settings.
